(** * cswinrt/concurrent_containers.h

    A shallow embedding of the two fork-join accumulators
    [cswinrt::concurrent_unordered_map] and
    [cswinrt::concurrent_unordered_set], and the properties of their
    insert / empty / size / consume protocol.

    Modelling decisions.
    - A [std::unordered_map<K,V>] value is a [gmap K V], a
      [std::unordered_set<T>] value is a [gset T]; hashing and bucket layout
      are not observable through the interface of the accumulators.
    - Container objects have an identity: the program memory [heap] maps the
      address of every live container object to its contents.  The member
      [m_data] of the accumulator is one such object; the container that
      [consume] returns by value is another, constructed by the move
      constructor.
    - [std::mutex] is its owner, if any.  [std::lock_guard] locks at
      construction and unlocks at destruction, so a method body
      [{ std::lock_guard lock(m_mutex); body; }] is the instruction sequence
      lock, body, unlock.
    - The move constructor of the standard unordered containers leaves its
      source empty.  The C++ standard only promises a valid state; every
      implementation of the standard library empties the source, and the
      comment on [consume] ("moves data out, resets container") relies on
      it.
    - [size_t] results are natural numbers: a container cannot hold more
      entries than there are addresses.

    Two semantics are given to the same method bodies: [exec] runs a call
    to its return without interference, [step] interleaves the
    instructions of any number of threads.  [interleaving_linearizable] and
    [run_execution] relate them. *)

From stdpp Require Import base tactics option functions list gmap fin_maps fin_sets.

#[local] Set Warnings "-clear-no-such-hyp".

Definition addr := positive.
Definition thread_id := nat.

(** [std::mutex]: [None] when free, [Some t] when thread [t] owns it. *)
Definition mutex := option thread_id.

(** ** What both accumulators share *)

Section accumulator.
Context {Data : Type} `{Empty Data, Size Data}.

(** The accumulator object and the container objects of the program.
    [m_data] is the address of the member container (it never changes),
    [m_mutex] the state of the member mutex. *)
Record state := State {
  heap : gmap addr Data;
  m_data : addr;
  m_mutex : mutex;
}.

Definition set_heap (h : gmap addr Data) (σ : state) : state :=
  State h (m_data σ) (m_mutex σ).
Definition set_mutex (m : mutex) (σ : state) : state :=
  State (heap σ) (m_data σ) m.

(** An operation of the standard container library on the program's
    containers; [None] stands for undefined behaviour (an operation on an
    object that is not alive). *)
Definition action (X : Type) := gmap addr Data → option (X * gmap addr Data).

(** Method bodies, as sequences of the three kinds of instruction a method
    of the accumulators is made of: [Lock] is [m_mutex.lock()], [Unlock] is
    [m_mutex.unlock()], and [Access act k] is one operation [act] on the
    member [m_data], whose address the semantics passes to [act]; [Ret] is
    the return to the caller. *)
Inductive prog (A : Type) : Type :=
  | Ret (a : A)
  | Lock (k : prog A)
  | Unlock (k : prog A)
  | Access {X : Type} (act : addr → action X) (k : X → prog A).
Global Arguments Ret {A} a.
Global Arguments Lock {A} k.
Global Arguments Unlock {A} k.
Global Arguments Access {A X} act k.

Fixpoint bind {A B} (p : prog A) (f : A → prog B) : prog B :=
  match p with
  | Ret a => f a
  | Lock k => Lock (bind k f)
  | Unlock k => Unlock (bind k f)
  | Access act k => Access act (λ x, bind (k x) f)
  end.

(** [m_data.op(...)] *)
Definition access {X} (act : addr → action X) : prog X := Access act Ret.

(** [{ std::lock_guard lock(m_mutex); return body; }]: the return value is
    built before the guard is destroyed. *)
Definition lock_guard {A} (body : prog A) : prog A :=
  Lock (bind body (λ r, Unlock (Ret r))).

(** *** Sequential execution of a method by thread [self].

    [Lock] on a mutex that is held does not return ([None]); [Unlock] of a
    mutex the thread does not own is undefined ([None]). *)
Fixpoint exec {A} (self : thread_id) (p : prog A) (σ : state) : option (A * state) :=
  match p with
  | Ret a => Some (a, σ)
  | Lock k =>
      match m_mutex σ with
      | None => exec self k (set_mutex (Some self) σ)
      | Some _ => None
      end
  | Unlock k =>
      if decide (m_mutex σ = Some self)
      then exec self k (set_mutex None σ)
      else None
  | Access act k =>
      match act (m_data σ) (heap σ) with
      | Some (x, h) => exec self (k x) (set_heap h σ)
      | None => None
      end
  end.

(** *** The container operations the two classes both use *)

(** [c.empty()], which the standard libraries compute as [size() == 0]. *)
Definition container_empty (a : addr) : action bool := λ h,
  d ← h !! a; Some (bool_decide (size d = 0), h).

(** [c.size()] *)
Definition container_size (a : addr) : action nat := λ h,
  d ← h !! a; Some (size d, h).

(** The move constructor, [C r(std::move(src))]: a new container object
    [r] takes the contents of [src]; [src] is left empty, as every
    implementation of the standard library leaves a moved-from unordered
    container. *)
Definition move_construct (src : addr) : action addr := λ h,
  d ← h !! src;
  let r := fresh (dom h) in
  Some (r, <[src := ∅]> (<[r := d]> h)).

(** The defaulted constructor, in a program whose containers are [h]: the
    member container is a new, empty object and the mutex is free. *)
Definition construct (h : gmap addr Data) : state :=
  let a := fresh (dom h) in State (<[a := ∅]> h) a None.

(** The contents of the member container. *)
Definition contents (σ : state) : option Data := heap σ !! m_data σ.

(** No call is in progress: the mutex is free and the member is alive. *)
Definition quiescent (σ : state) : Prop :=
  m_mutex σ = None ∧ is_Some (contents σ).

(** No call is in progress and the member container holds [d]. *)
Definition holds (σ : state) (d : Data) : Prop :=
  m_mutex σ = None ∧ contents σ = Some d.

(** The member container is replaced by [d], while no call is in
    progress. *)
Definition set_contents (d : Data) (σ : state) : state :=
  State (<[m_data σ := d]> (heap σ)) (m_data σ) None.

(** From [σ] to [σ'] the accumulator is the same object and every other
    container that was alive is unchanged. *)
Definition frame (σ σ' : state) : Prop :=
  m_data σ' = m_data σ
  ∧ ∀ a, a ≠ m_data σ → is_Some (heap σ !! a) → heap σ' !! a = heap σ !! a.

(** *** Lock discipline of a method body.

    [guarded held p]: started by a thread that holds the mutex iff [held],
    [p] operates on [m_data] only while holding the mutex, locks only
    when it does not hold it, unlocks only when it holds it, and returns
    without holding it. *)
Fixpoint guarded {A} (held : bool) (p : prog A) : Prop :=
  match p with
  | Ret _ => held = false
  | Lock k => held = false ∧ guarded true k
  | Unlock k => held = true ∧ guarded false k
  | Access _ k => held = true ∧ ∀ x, guarded true (k x)
  end.

(** The part of a method body that runs while the mutex is held:
    operations on [m_data], then the release of the mutex, then the
    return. *)
Fixpoint critical {A} (p : prog A) : Prop :=
  match p with
  | Access _ k => ∀ x, critical (k x)
  | Unlock (Ret _) => True
  | _ => False
  end.

(** A method body that is one critical section. *)
Definition atomic {A} (p : prog A) : Prop :=
  match p with
  | Lock k => critical k
  | _ => False
  end.

(** A container operation that, called on the container at [this], leaves
    every other live container as it is. *)
Definition respects_frame {X} (act : addr → action X) : Prop :=
  ∀ this h x h',
    act this h = Some (x, h') →
    ∀ a, a ≠ this → is_Some (h !! a) → h' !! a = h !! a.

(** A method body all of whose container operations respect the frame. *)
Fixpoint local {A} (p : prog A) : Prop :=
  match p with
  | Ret _ => True
  | Lock k | Unlock k => local k
  | Access act k => respects_frame act ∧ ∀ x, local (k x)
  end.

(** *** Threads calling methods concurrently.

    [Call] names the calls a thread can make, [method c] is the body of
    call [c]. *)
Context {Call Result : Type} (method : Call → prog Result).

(** A thread is outside any call, or inside call [c] with [p] left to
    run. *)
Inductive thread :=
  | Idle
  | Running (c : Call) (p : prog Result).

Definition config : Type := state * (thread_id → thread).

Inductive event :=
  | ev_call (c : Call)
  | ev_lock (c : Call)
  | ev_access
  | ev_unlock
  | ev_return (r : Result).

(** One instruction of thread [t]. *)
Inductive step (t : thread_id) : event → config → config → Prop :=
  | step_call c σ P :
      P t = Idle →
      step t (ev_call c) (σ, P) (σ, <[t := Running c (method c)]> P)
  | step_lock c k σ P :
      P t = Running c (Lock k) →
      m_mutex σ = None →
      step t (ev_lock c) (σ, P) (set_mutex (Some t) σ, <[t := Running c k]> P)
  | step_access {X} c (act : addr → action X) k x h σ P :
      P t = Running c (Access act k) →
      act (m_data σ) (heap σ) = Some (x, h) →
      step t ev_access (σ, P) (set_heap h σ, <[t := Running c (k x)]> P)
  | step_unlock c k σ P :
      P t = Running c (Unlock k) →
      m_mutex σ = Some t →
      step t ev_unlock (σ, P) (set_mutex None σ, <[t := Running c k]> P)
  | step_return c r σ P :
      P t = Running c (Ret r) →
      step t (ev_return r) (σ, P) (σ, <[t := Idle]> P).

(** Configurations reached from one where no call is in progress. *)
Inductive reachable : config → Prop :=
  | reachable_init σ :
      quiescent σ → reachable (σ, λ _, Idle)
  | reachable_step t e c c' :
      reachable c → step t e c c' → reachable c'.

(** The call that an instruction of thread [t] puts into the order of the
    calls: a call takes its place when it acquires the mutex. *)
Definition acquisition (t : thread_id) (e : event) : list (thread_id * Call) :=
  match e with
  | ev_lock c => [(t, c)]
  | _ => []
  end.

(** [execution c calls c']: instructions of the threads, in some
    interleaving, lead from [c] to [c'], and [calls] are the calls that
    acquired the mutex on the way, in the order in which they did. *)
Inductive execution : config → list (thread_id * Call) → config → Prop :=
  | execution_refl c : execution c [] c
  | execution_step c1 calls c2 t e c3 :
      execution c1 calls c2 → step t e c2 c3 →
      execution c1 (calls ++ acquisition t e) c3.

(** Thread state [th] is inside a critical section: its next instruction
    is an operation on [m_data] or the release of the guard. *)
Definition in_critical_section (th : thread) : Prop :=
  match th with
  | Running _ (Access _ _) | Running _ (Unlock _) => True
  | _ => False
  end.

(** Whether thread [t] owns the mutex. *)
Definition owns (σ : state) (t : thread_id) : bool :=
  bool_decide (m_mutex σ = Some t).

(** The invariant of the interleaving: a thread outside a call does not
    own the mutex, and what a thread inside a call has still to run
    follows the lock discipline from where it stands. *)
Definition disciplined (c : config) : Prop :=
  ∀ t,
    match c.2 t with
    | Idle => m_mutex c.1 ≠ Some t
    | Running _ p => guarded (owns c.1 t) p
    end.

(** What every thread has still to run respects the frame. *)
Definition all_local (c : config) : Prop :=
  ∀ t,
    match c.2 t with
    | Idle => True
    | Running _ p => local p
    end.

(** Calls made one after the other, each by the thread named with it. *)
Fixpoint run (calls : list (thread_id * Call)) (σ : state)
    : option (list Result * state) :=
  match calls with
  | [] => Some ([], σ)
  | (t, c) :: calls =>
      match exec t (method c) σ with
      | Some (r, σ) =>
          match run calls σ with
          | Some (rs, σ) => Some (r :: rs, σ)
          | None => None
          end
      | None => None
      end
  end.

(** Thread state [th] is outside the critical section of its call: it has
    not acquired the mutex yet, or it has released it and is about to
    return. *)
Definition outside (th : thread) : Prop :=
  match th with
  | Idle => True
  | Running c p => p = method c ∨ ∃ r, p = Ret r
  end.

(** [linearized σ0 calls c]: configuration [c] is what the calls [calls],
    made one after the other from [σ0], lead to, the last of them being
    still in its critical section when the mutex is held: the state at the
    end of that critical section is the state after [calls]. *)
Definition linearized (σ0 : state) (calls : list (thread_id * Call))
    (c : config) : Prop :=
  ∃ rs σe d,
    run calls σ0 = Some (rs, σe)
    ∧ holds σe d
    ∧ match m_mutex c.1 with
      | None => c.1 = σe ∧ ∀ t, outside (c.2 t)
      | Some t =>
          (∃ cl p r,
             c.2 t = Running cl p ∧ critical p ∧ exec t p c.1 = Some (r, σe))
          ∧ ∀ t', t' ≠ t → outside (c.2 t')
      end.
End accumulator.

Global Arguments state : clear implicits.
Global Arguments prog : clear implicits.
Global Arguments action : clear implicits.
Global Arguments thread : clear implicits.
Global Arguments config : clear implicits.

(** What a call returns to its caller. *)
Inductive result :=
  | ret_void
  | ret_bool (b : bool)
  | ret_size (n : nat)
  | ret_container (a : addr).

(** ** [concurrent_unordered_map<K, V, H, E>] *)

Module concurrent_unordered_map.
Section methods.
Context `{Countable K} {V : Type}.

(** [c.insert_or_assign(key, value)] on the [std::unordered_map] at [a]. *)
Definition unordered_map_insert_or_assign (key : K) (value : V) (a : addr)
    : action (gmap K V) unit := λ h,
  d ← h !! a; Some (tt, <[a := <[key := value]> d]> h).

(** [void insert_or_assign(K const& key, V const& value)] *)
Definition insert_or_assign (key : K) (value : V) : prog (gmap K V) unit :=
  lock_guard (access (unordered_map_insert_or_assign key value)).

(** [bool empty() const] *)
Definition empty : prog (gmap K V) bool :=
  lock_guard (access container_empty).

(** [size_t size() const] *)
Definition size : prog (gmap K V) nat :=
  lock_guard (access container_size).

(** [std::unordered_map<K, V, H, E> consume()]: [return std::move(m_data);]
    under the guard; the caller gets the address of the new container. *)
Definition consume : prog (gmap K V) addr :=
  lock_guard (access move_construct).

(** The calls of the public interface, and the body of each. *)
Inductive call :=
  | call_insert_or_assign (key : K) (value : V)
  | call_empty
  | call_size
  | call_consume.

Definition method (c : call) : prog (gmap K V) result :=
  match c with
  | call_insert_or_assign key value =>
      bind (insert_or_assign key value) (λ _, Ret ret_void)
  | call_empty => bind empty (λ b, Ret (ret_bool b))
  | call_size => bind size (λ n, Ret (ret_size n))
  | call_consume => bind consume (λ a, Ret (ret_container a))
  end.
End methods.
Global Arguments call : clear implicits.
End concurrent_unordered_map.

(** ** [concurrent_unordered_set<T, H, E>] *)

Module concurrent_unordered_set.
Section methods.
Context `{Countable T}.

(** [c.insert(value)] on the [std::unordered_set] at [a]: nothing changes
    when an equal value is present. *)
Definition unordered_set_insert (value : T) (a : addr)
    : action (gset T) unit := λ h,
  d ← h !! a;
  Some (tt, <[a := if decide (value ∈ d) then d else {[value]} ∪ d]> h).

(** [void insert(T const& value)] *)
Definition insert (value : T) : prog (gset T) unit :=
  lock_guard (access (unordered_set_insert value)).

(** [void insert(T&& value)]: the value is moved into the set instead of
    copied; the set ends up with the same contents. *)
Definition insert_rvalue (value : T) : prog (gset T) unit :=
  lock_guard (access (unordered_set_insert value)).

(** [bool empty() const] *)
Definition empty : prog (gset T) bool :=
  lock_guard (access container_empty).

(** [size_t size() const] *)
Definition size : prog (gset T) nat :=
  lock_guard (access container_size).

(** [std::unordered_set<T, H, E> consume()]: [return std::move(m_data);]
    under the guard; the caller gets the address of the new container. *)
Definition consume : prog (gset T) addr :=
  lock_guard (access move_construct).

(** The calls of the public interface, and the body of each. *)
Inductive call :=
  | call_insert (value : T)
  | call_insert_rvalue (value : T)
  | call_empty
  | call_size
  | call_consume.

Definition method (c : call) : prog (gset T) result :=
  match c with
  | call_insert value => bind (insert value) (λ _, Ret ret_void)
  | call_insert_rvalue value => bind (insert_rvalue value) (λ _, Ret ret_void)
  | call_empty => bind empty (λ b, Ret (ret_bool b))
  | call_size => bind size (λ n, Ret (ret_size n))
  | call_consume => bind consume (λ a, Ret (ret_container a))
  end.
End methods.
Global Arguments call : clear implicits.
End concurrent_unordered_set.


(** ** The entries a round of insertions is expected to leave *)

Section expected.
Context `{EqDecision K} {V : Type}.

(** The union of the entries of [l] with the last writer winning: an
    entry stays unless a later one has its key. *)
Fixpoint last_writer_wins (l : list (K * V)) : list (K * V) :=
  match l with
  | [] => []
  | (k, v) :: l =>
      if decide (k ∈ l.*1)
      then last_writer_wins l
      else (k, v) :: last_writer_wins l
  end.

(** The contents an [unordered_map] holding [d] has after the entries of
    [l] were inserted-or-assigned in order. *)
Definition insert_or_assign_all `{Countable K} (l : list (K * V))
    (d : gmap K V) : gmap K V :=
  foldl (λ m e, <[e.1 := e.2]> m) d l.
End expected.

(** The contents an [unordered_set] holding [d] has after the values of [l]
    were inserted in order. *)
Definition insert_all `{Countable T} (l : list T) (d : gset T) : gset T :=
  foldl (λ s x, if decide (x ∈ s) then s else {[x]} ∪ s) d l.

(** How many times [x] occurs in [l]. *)
Definition occurrences `{EqDecision A} (x : A) (l : list A) : nat :=
  length (filter (λ y, y = x) l).

(** The calls that insert the entries of [l], each by its thread. *)
Definition map_inserts `{Countable K} {V : Type}
    (l : list (thread_id * (K * V)))
    : list (thread_id * concurrent_unordered_map.call K V) :=
  (λ e : thread_id * (K * V),
     (e.1, concurrent_unordered_map.call_insert_or_assign e.2.1 e.2.2)) <$> l.

(** The calls that insert the values of [l], each by its thread; the flag
    selects the overload taking an rvalue. *)
Definition set_inserts `{Countable T} (l : list (thread_id * (bool * T)))
    : list (thread_id * concurrent_unordered_set.call T) :=
  (λ e : thread_id * (bool * T),
     (e.1, if e.2.1
           then concurrent_unordered_set.call_insert_rvalue e.2.2
           else concurrent_unordered_set.call_insert e.2.2)) <$> l.

(** ** Concrete accumulators *)

Module examples.
Import concurrent_unordered_map.

(** A new map accumulator in a program without other containers. *)
Definition fresh_map : state (gmap nat nat) := construct ∅.

(** Thread 0 has called [insert_or_assign(1, 10)] on it ... *)
Definition called : config (gmap nat nat) (call nat nat) result :=
  (fresh_map,
   <[0 := Running (call_insert_or_assign 1 10)
            (method (call_insert_or_assign 1 10))]> (λ _, Idle)).

(** ... and has acquired the guard. *)
Definition locked : config (gmap nat nat) (call nat nat) result :=
  (set_mutex (Some 0) fresh_map,
   <[0 := Running (call_insert_or_assign 1 10)
            (Access (unordered_map_insert_or_assign 1 10)
               (λ _, Unlock (Ret ret_void)))]> called.2).

(** ... and has run the insertion. *)
Definition inserted : config (gmap nat nat) (call nat nat) result :=
  (set_heap {[1%positive := {[1 := 10]}]} locked.1,
   <[0 := Running (call_insert_or_assign 1 10) (Unlock (Ret ret_void))]>
     locked.2).

(** A map accumulator that holds the entry [1 ↦ 10], and the same after
    [consume] has returned the container at address 2. *)
Definition holding : state (gmap nat nat) :=
  set_contents {[1 := 10]} fresh_map.
Definition consumed : state (gmap nat nat) :=
  State {[1%positive := ∅; 2%positive := {[1 := 10]}]} 1%positive None.

(** The same for a set accumulator that holds the value [7]. *)
Definition holding_set : state (gset nat) :=
  set_contents {[7]} (construct ∅).
Definition consumed_set : state (gset nat) :=
  State {[1%positive := ∅; 2%positive := {[7]}]} 1%positive None.

(** Later calls on the consumed accumulators: an insertion, size(),
    empty() and another consume, which returns the container at
    address 3. *)
Definition later_calls : list (thread_id * call nat nat) :=
  [(1, call_insert_or_assign 1 11); (0, call_size); (2, call_empty);
   (1, call_consume)].
Definition later_calls_set : list (thread_id * concurrent_unordered_set.call nat) :=
  [(1, concurrent_unordered_set.call_insert 8);
   (0, concurrent_unordered_set.call_size);
   (2, concurrent_unordered_set.call_empty);
   (1, concurrent_unordered_set.call_consume)].
Definition later_results : list result :=
  [ret_void; ret_size 1; ret_bool false; ret_container 3%positive].
Definition later : state (gmap nat nat) :=
  State {[1%positive := ∅; 2%positive := {[1 := 10]}; 3%positive := {[1 := 11]}]}
        1%positive None.
Definition later_set : state (gset nat) :=
  State {[1%positive := ∅; 2%positive := {[7]}; 3%positive := {[8]}]}
        1%positive None.

(** Two threads insert concurrently.  Map: thread 1 inserts [1 ↦ 11] and
    thread 0 inserts [1 ↦ 10].  Set: thread 1 inserts 7 and thread 0 inserts
    7 as an rvalue.  The calls are listed in the order in which they
    acquire the mutex. *)
Definition racing : list (thread_id * call nat nat) :=
  map_inserts [(1, (1, 11)); (0, (1, 10))].
Definition racing_set : list (thread_id * concurrent_unordered_set.call nat) :=
  set_inserts [(1, (false, 7)); (0, (true, 7))].

(** Calls other than consume. *)
Definition growing_calls : list (thread_id * call nat nat) :=
  [(1, call_insert_or_assign 1 11); (2, call_insert_or_assign 2 20);
   (0, call_size); (1, call_empty)].
Definition growing_calls_set : list (thread_id * concurrent_unordered_set.call nat) :=
  [(1, concurrent_unordered_set.call_insert 7);
   (2, concurrent_unordered_set.call_insert_rvalue 8);
   (0, concurrent_unordered_set.call_size)].
End examples.

(** ** Concrete rounds *)

Module scenarios.
Import concurrent_unordered_map.

(** Two threads insert entries with different keys, in one order and in
    the other; either way the accumulator ends up as [spread_state]. *)
Definition spread : list (thread_id * (nat * nat)) :=
  [(1, (1, 11)); (0, (2, 20))].
Definition spread_swapped : list (thread_id * (nat * nat)) :=
  [(0, (2, 20)); (1, (1, 11))].
Definition spread_state : state (gmap nat nat) :=
  State {[1%positive := {[1 := 11; 2 := 20]}]} 1%positive None.

(** One insertion of the value 7 into the set. *)
Definition single : list (thread_id * (bool * nat)) := [(0, (false, 7))].

(** An insertion, a consume by thread 0 and another insertion: the
    consume returns the container at address 2 with the first entry, the
    second entry stays in the accumulator. *)
Definition split_calls : list (thread_id * call nat nat) :=
  (map_inserts [(1, (1, 11))] ++ [(0, call_consume)])
  ++ map_inserts [(2, (2, 20))].
Definition split_state : state (gmap nat nat) :=
  State {[1%positive := {[2 := 20]}; 2%positive := {[1 := 11]}]}
        1%positive None.
Definition split_calls_set
    : list (thread_id * concurrent_unordered_set.call nat) :=
  (set_inserts [(1, (false, 7))]
   ++ [(0, concurrent_unordered_set.call_consume)])
  ++ set_inserts [(2, (true, 8))].
Definition split_state_set : state (gset nat) :=
  State {[1%positive := {[8]}; 2%positive := {[7]}]} 1%positive None.
End scenarios.

(** A container operation that is defined on live containers only. *)
Definition needs_live {Data X : Type} (act : addr → action Data X) : Prop :=
  ∀ a h x h', act a h = Some (x, h') → is_Some (h !! a).

(** ** Sequential execution *)

Section exec_lemmas.
Context {Data : Type} `{Empty Data, Size Data}.
Implicit Types (σ : state Data) (h : gmap addr Data) (d : Data).

Lemma exec_bind {A B : Type} t (p : prog Data A) (f : A → prog Data B) σ :
  exec t (bind p f) σ =
  match exec t p σ with
  | Some (a, σ') => exec t (f a) σ'
  | None => None
  end.
Proof.
  revert σ. induction p as [a|k IH|k IH|X act k IH]; intros σ; simpl.
  - done.
  - destruct (m_mutex σ); [done|apply IH].
  - case_decide; [apply IH|done].
  - destruct (act _ _) as [[x h]|]; [apply IH|done].
Qed.

(** A guarded operation on [m_data], called while the mutex is free, is
    the operation itself, and leaves the mutex free. *)
Lemma exec_lock_guard_access {X : Type} t (act : addr → action Data X) σ :
  m_mutex σ = None →
  exec t (lock_guard (access act)) σ =
  match act (m_data σ) (heap σ) with
  | Some (x, h) => Some (x, State h (m_data σ) None)
  | None => None
  end.
Proof.
  intros Hm. unfold lock_guard, access. simpl. rewrite Hm. simpl.
  destruct (act _ _) as [[x h]|]; [|done]. simpl.
  by rewrite decide_True.
Qed.

(** A call on a held mutex does not return. *)
Lemma exec_lock_guard_blocked {A : Type} t t' (body : prog Data A) σ :
  m_mutex σ = Some t' → exec t (lock_guard body) σ = None.
Proof. intros Hm. unfold lock_guard. simpl. by rewrite Hm. Qed.

Lemma state_eta σ : State (heap σ) (m_data σ) (m_mutex σ) = σ.
Proof. by destruct σ. Qed.

Lemma construct_quiescent h : quiescent (construct h).
Proof.
  unfold quiescent, contents, construct. simpl. split; [done|].
  rewrite lookup_insert_eq. by eexists.
Qed.

Lemma construct_contents h : contents (construct h) = Some ∅.
Proof. unfold contents, construct. simpl. by rewrite lookup_insert_eq. Qed.

Section run_lemmas.
Context {Call Result : Type} (method : Call → prog Data Result).

Lemma run_app calls1 calls2 σ :
  run method (calls1 ++ calls2) σ =
  match run method calls1 σ with
  | Some (rs1, σ1) =>
      match run method calls2 σ1 with
      | Some (rs2, σ2) => Some (rs1 ++ rs2, σ2)
      | None => None
      end
  | None => None
  end.
Proof.
  revert σ. induction calls1 as [|[t c] calls1 IH]; intros σ; simpl.
  - by destruct (run method calls2 σ) as [[??]|].
  - destruct (exec t (method c) σ) as [[r σ1]|]; [|done].
    rewrite IH. destruct (run method calls1 σ1) as [[rs1 σ2]|]; [|done].
    by destruct (run method calls2 σ2) as [[??]|].
Qed.

Lemma run_cons t c calls σ :
  run method ((t, c) :: calls) σ =
  match exec t (method c) σ with
  | Some (r, σ1) =>
      match run method calls σ1 with
      | Some (rs, σ2) => Some (r :: rs, σ2)
      | None => None
      end
  | None => None
  end.
Proof. done. Qed.

Lemma run_singleton t c σ :
  run method [(t, c)] σ =
  match exec t (method c) σ with
  | Some (r, σ') => Some ([r], σ')
  | None => None
  end.
Proof. simpl. by destruct (exec t (method c) σ) as [[??]|]. Qed.
End run_lemmas.
End exec_lemmas.

(** ** The guarded container operations, called while no call is in progress *)

Section guarded_operations.
Context {Data : Type} `{Empty Data, Size Data}.
Implicit Types (σ : state Data) (h : gmap addr Data) (d : Data).

Lemma holds_quiescent σ d : holds σ d → quiescent σ.
Proof. intros [? Hd]. split; [done|]. rewrite Hd. by eexists. Qed.

Lemma quiescent_holds σ : quiescent σ → ∃ d, holds σ d.
Proof. intros [? [d Hd]]. by exists d. Qed.

Lemma construct_holds h : holds (construct h) ∅.
Proof. split; [done|apply construct_contents]. Qed.

Lemma exec_guarded_empty t σ d :
  holds σ d →
  exec t (lock_guard (access container_empty)) σ
  = Some (bool_decide (size d = 0), σ).
Proof.
  intros [Hm Hd]. rewrite exec_lock_guard_access by done.
  unfold container_empty. unfold contents in Hd. rewrite Hd. simpl.
  by rewrite <-Hm, state_eta.
Qed.

Lemma exec_guarded_size t σ d :
  holds σ d →
  exec t (lock_guard (access container_size)) σ = Some (size d, σ).
Proof.
  intros [Hm Hd]. rewrite exec_lock_guard_access by done.
  unfold container_size. unfold contents in Hd. rewrite Hd. simpl.
  by rewrite <-Hm, state_eta.
Qed.

Lemma exec_guarded_move t σ d :
  holds σ d →
  exec t (lock_guard (access move_construct)) σ
  = Some (fresh (dom (heap σ)),
          State (<[m_data σ := ∅]> (<[fresh (dom (heap σ)) := d]> (heap σ)))
                (m_data σ) None).
Proof.
  intros [Hm Hd]. rewrite exec_lock_guard_access by done.
  unfold move_construct. unfold contents in Hd. by rewrite Hd.
Qed.

(** A guarded operation that returns was called with the mutex free. *)
Lemma exec_lock_guard_returns {A : Type} t (body : prog Data A) σ r σ' :
  exec t (lock_guard body) σ = Some (r, σ') → m_mutex σ = None.
Proof.
  intros Hex. destruct (m_mutex σ) as [t'|] eqn:Hm; [|done].
  by rewrite (exec_lock_guard_blocked t t') in Hex.
Qed.

(** The address that the move constructor picks is not the member's. *)
Lemma fresh_not_member σ d : holds σ d → fresh (dom (heap σ)) ≠ m_data σ.
Proof.
  intros [_ Hd] Heq. apply (is_fresh (dom (heap σ))).
  rewrite Heq. apply elem_of_dom. unfold contents in Hd. by rewrite Hd.
Qed.

Lemma fresh_not_live h a : is_Some (h !! a) → a ≠ fresh (dom h).
Proof.
  intros Ha ->. apply (is_fresh (dom h)). by apply elem_of_dom.
Qed.

(** What the guarded move leaves: the member empty, the new container
    with the former contents, every other container as it was. *)
Lemma guarded_move_spec t σ d :
  holds σ d →
  ∃ r σ',
    exec t (lock_guard (access move_construct)) σ = Some (r, σ')
    ∧ holds σ' ∅
    ∧ m_data σ' = m_data σ
    ∧ r ≠ m_data σ
    ∧ heap σ !! r = None
    ∧ heap σ' !! r = Some d
    ∧ ∀ a, a ≠ m_data σ → is_Some (heap σ !! a) → heap σ' !! a = heap σ !! a.
Proof.
  intros Hh. pose proof (fresh_not_member _ _ Hh) as Hne.
  eexists _, _. split; [by apply exec_guarded_move|]. simpl.
  split_and!; try done.
  - split; [done|]. unfold contents. simpl. by rewrite lookup_insert_eq.
  - apply not_elem_of_dom, is_fresh.
  - rewrite lookup_insert_ne by done. by rewrite lookup_insert_eq.
  - intros a Ha Hlive. rewrite lookup_insert_ne by done.
    rewrite lookup_insert_ne; [done|].
    intros Heq. by apply (fresh_not_live _ _ Hlive).
Qed.

Lemma guarded_move_returns t σ r σ' :
  exec t (lock_guard (access move_construct)) σ = Some (r, σ') →
  ∃ d, holds σ d.
Proof.
  intros Hex. pose proof (exec_lock_guard_returns _ _ _ _ _ Hex) as Hm.
  rewrite exec_lock_guard_access in Hex by done.
  unfold move_construct in Hex.
  destruct (heap σ !! m_data σ) as [d|] eqn:Hd; [|done].
  by exists d.
Qed.

Lemma holds_set_contents σ d : holds (set_contents d σ) d.
Proof.
  split; [done|]. unfold contents. simpl. by rewrite lookup_insert_eq.
Qed.

Lemma frame_set_contents σ d : frame σ (set_contents d σ).
Proof.
  split; [done|]. intros a Ha _. simpl. by rewrite lookup_insert_ne.
Qed.

Lemma frame_refl σ : frame σ σ.
Proof. by split. Qed.

Lemma frame_trans σ1 σ2 σ3 : frame σ1 σ2 → frame σ2 σ3 → frame σ1 σ3.
Proof.
  intros [Hm12 H12] [Hm23 H23]. split; [congruence|].
  intros a Ha Hlive. rewrite <-(H12 a Ha Hlive). apply H23.
  - by rewrite Hm12.
  - by rewrite (H12 a Ha Hlive).
Qed.

Lemma exec_guarded_update t (f : Data → Data) σ d :
  holds σ d →
  exec t (lock_guard (access (λ a h, d ← h !! a; Some (tt, <[a := f d]> h)))) σ
  = Some (tt, set_contents (f d) σ).
Proof.
  intros [Hm Hd]. rewrite exec_lock_guard_access by done.
  unfold contents in Hd. by rewrite Hd.
Qed.

(** Sequences of calls whose methods all return, keep the accumulator
    usable and leave the other containers alone. *)
Section run_frame.
Context {Call Result : Type} (method : Call → prog Data Result).
Hypothesis method_returns : ∀ t c σ d,
  holds σ d →
  ∃ res σ' d',
    exec t (method c) σ = Some (res, σ') ∧ holds σ' d' ∧ frame σ σ'.

Lemma run_returns calls σ d :
  holds σ d →
  ∃ rs σ' d',
    run method calls σ = Some (rs, σ') ∧ holds σ' d' ∧ frame σ σ'.
Proof.
  revert σ d. induction calls as [|[t c] calls IH]; intros σ d Hh.
  - exists [], σ, d. split_and!; [done..|apply frame_refl].
  - destruct (method_returns t c σ d Hh) as (r & σ1 & d1 & Hex & Hh1 & Hf1).
    destruct (IH σ1 d1 Hh1) as (rs & σ2 & d2 & Hrun & Hh2 & Hf2).
    exists (r :: rs), σ2, d2. simpl. rewrite Hex, Hrun.
    split_and!; [done..|by eapply frame_trans].
Qed.

Lemma run_frame calls σ d rs σ' :
  holds σ d → run method calls σ = Some (rs, σ') → frame σ σ'.
Proof.
  intros Hh Hrun.
  destruct (run_returns calls σ d Hh) as (? & ? & ? & Hrun' & _ & Hf).
  congruence.
Qed.
End run_frame.
End guarded_operations.

(** ** The methods of [concurrent_unordered_map] *)

Section map_methods.
Context `{Countable K} {V : Type}.
Implicit Types (σ : state (gmap K V)) (d : gmap K V) (k : K) (v : V).
Import concurrent_unordered_map.

Lemma map_exec_insert_or_assign t k v σ d :
  holds σ d →
  exec t (insert_or_assign k v) σ = Some (tt, set_contents (<[k := v]> d) σ).
Proof. apply (exec_guarded_update t (λ d, <[k := v]> d)). Qed.

Lemma map_exec_empty t σ d :
  holds σ d → exec t empty σ = Some (bool_decide (base.size d = 0), σ).
Proof. apply exec_guarded_empty. Qed.

Lemma map_exec_size t σ d :
  holds σ d → exec t size σ = Some (base.size d, σ).
Proof. apply exec_guarded_size. Qed.

Lemma map_method_returns t (c : call K V) σ d :
  holds σ d →
  ∃ res σ' d',
    exec t (method c) σ = Some (res, σ') ∧ holds σ' d' ∧ frame σ σ'.
Proof.
  intros Hh. destruct c as [k v| | |]; unfold method; rewrite exec_bind.
  - rewrite (map_exec_insert_or_assign _ _ _ _ _ Hh). simpl.
    eexists _, _, _. split; [done|].
    split; [apply holds_set_contents|apply frame_set_contents].
  - rewrite (map_exec_empty _ _ _ Hh). simpl.
    eexists _, _, _. split; [done|]. split; [done|apply frame_refl].
  - rewrite (map_exec_size _ _ _ Hh). simpl.
    eexists _, _, _. split; [done|]. split; [done|apply frame_refl].
  - destruct (guarded_move_spec t σ d Hh)
      as (r & σ' & Hex & Hh' & Hm & _ & _ & _ & Hf).
    unfold consume. rewrite Hex. simpl.
    eexists _, _, _. split; [done|]. by split.
Qed.
End map_methods.

(** ** Rounds of insertions into the map *)

Section map_rounds.
Context `{Countable K} {V : Type}.
Implicit Types (σ : state (gmap K V)) (d : gmap K V) (k : K) (v : V).
Implicit Types (l : list (K * V)).
Import concurrent_unordered_map.

Lemma last_writer_wins_key l k v : (k, v) ∈ last_writer_wins l → k ∈ l.*1.
Proof.
  induction l as [|[k' v'] l IH]; simpl; [by rewrite elem_of_nil|].
  case_decide; rewrite ?elem_of_cons; [by right; apply IH|].
  intros [[= -> ->]|?]; [by left|right; by apply IH].
Qed.

Lemma NoDup_last_writer_wins l : NoDup (last_writer_wins l).*1.
Proof.
  induction l as [|[k v] l IH]; simpl; [constructor|].
  case_decide as Hk; [done|]. rewrite fmap_cons. constructor; [|done].
  simpl. intros Hin. apply Hk.
  apply list_elem_of_fmap in Hin as [[k' v'] [-> Hin]].
  by eapply last_writer_wins_key.
Qed.

(** After the insertions, a key has the value of its last entry in [l],
    or, when [l] has no entry for it, the value it had. *)
Lemma insert_or_assign_all_lookup l d k v :
  insert_or_assign_all l d !! k = Some v
  ↔ (k, v) ∈ last_writer_wins l ∨ ((k ∉ l.*1) ∧ d !! k = Some v).
Proof.
  revert d. induction l as [|[k' v'] l IH]; intros d.
  - simpl. rewrite elem_of_nil. pose proof (not_elem_of_nil k). tauto.
  - change (insert_or_assign_all ((k', v') :: l) d)
      with (insert_or_assign_all l (<[k' := v']> d)).
    rewrite IH, fmap_cons, not_elem_of_cons. simpl.
    pose proof (last_writer_wins_key l k v) as Hkey.
    destruct (decide (k = k')) as [->|Hne].
    + rewrite lookup_insert_eq.
      clear IH. case_decide as Hk'; rewrite ?elem_of_cons; intuition congruence.
    + rewrite lookup_insert_ne by done.
      clear IH. case_decide as Hk'; rewrite ?elem_of_cons; intuition congruence.
Qed.

(** The entries of the map after the insertions into an empty map are the
    last-writer-wins union of the inserted entries. *)
Lemma insert_or_assign_all_entries l :
  map_to_list (insert_or_assign_all l ∅) ≡ₚ last_writer_wins l.
Proof.
  apply NoDup_Permutation.
  - apply NoDup_map_to_list.
  - eapply NoDup_fmap_1, NoDup_last_writer_wins.
  - intros [k v]. rewrite elem_of_map_to_list, insert_or_assign_all_lookup.
    rewrite lookup_empty. naive_solver.
Qed.

(** A sequence of [insert_or_assign] calls, by any threads. *)
Lemma map_run_inserts (l : list (thread_id * (K * V))) σ d :
  holds σ d →
  ∃ σ',
    run method (map_inserts l) σ = Some (replicate (length l) ret_void, σ')
    ∧ holds σ' (insert_or_assign_all l.*2 d)
    ∧ frame σ σ'.
Proof.
  revert σ d. induction l as [|[t [k v]] l IH]; intros σ d Hh.
  - exists σ. split_and!; [done..|apply frame_refl].
  - pose proof (holds_set_contents σ (<[k := v]> d)) as Hh1.
    destruct (IH _ _ Hh1) as (σ' & Hrun & Hh' & Hf).
    exists σ'. unfold map_inserts in *. rewrite fmap_cons, run_cons.
    cbn [fst snd method].
    rewrite exec_bind, (map_exec_insert_or_assign _ _ _ _ _ Hh).
    cbn [exec]. rewrite Hrun. split_and!; [done..|].
    eapply frame_trans; [apply frame_set_contents|done].
Qed.
End map_rounds.

(** ** The methods of [concurrent_unordered_set] *)

Section set_methods.
Context `{Countable T}.
Implicit Types (σ : state (gset T)) (d : gset T) (x : T).
Import concurrent_unordered_set.

Lemma set_exec_insert t x σ d :
  holds σ d →
  exec t (insert x) σ
  = Some (tt, set_contents (if decide (x ∈ d) then d else {[x]} ∪ d) σ).
Proof.
  apply (exec_guarded_update t (λ d, if decide (x ∈ d) then d else {[x]} ∪ d)).
Qed.

Lemma set_exec_insert_rvalue t x σ d :
  holds σ d →
  exec t (insert_rvalue x) σ
  = Some (tt, set_contents (if decide (x ∈ d) then d else {[x]} ∪ d) σ).
Proof.
  apply (exec_guarded_update t (λ d, if decide (x ∈ d) then d else {[x]} ∪ d)).
Qed.

Lemma set_exec_empty t σ d :
  holds σ d → exec t empty σ = Some (bool_decide (base.size d = 0), σ).
Proof. apply exec_guarded_empty. Qed.

Lemma set_exec_size t σ d :
  holds σ d → exec t size σ = Some (base.size d, σ).
Proof. apply exec_guarded_size. Qed.

Lemma set_method_returns t (c : call T) σ d :
  holds σ d →
  ∃ res σ' d',
    exec t (method c) σ = Some (res, σ') ∧ holds σ' d' ∧ frame σ σ'.
Proof.
  intros Hh. destruct c as [x|x| | |]; unfold method; rewrite exec_bind.
  - rewrite (set_exec_insert _ _ _ _ Hh). simpl.
    eexists _, _, _. split; [done|].
    split; [apply holds_set_contents|apply frame_set_contents].
  - rewrite (set_exec_insert_rvalue _ _ _ _ Hh). simpl.
    eexists _, _, _. split; [done|].
    split; [apply holds_set_contents|apply frame_set_contents].
  - rewrite (set_exec_empty _ _ _ Hh). simpl.
    eexists _, _, _. split; [done|]. split; [done|apply frame_refl].
  - rewrite (set_exec_size _ _ _ Hh). simpl.
    eexists _, _, _. split; [done|]. split; [done|apply frame_refl].
  - destruct (guarded_move_spec t σ d Hh)
      as (r & σ' & Hex & Hh' & Hm & _ & _ & _ & Hf).
    unfold consume. rewrite Hex. simpl.
    eexists _, _, _. split; [done|]. by split.
Qed.

Lemma insert_present x d : x ∈ d → (if decide (x ∈ d) then d else {[x]} ∪ d) = d.
Proof. intros Hx. by rewrite decide_True. Qed.

Lemma insert_union x d : (if decide (x ∈ d) then d else {[x]} ∪ d) = {[x]} ∪ d.
Proof. case_decide; [|done]. set_solver. Qed.

Lemma insert_all_union (l : list T) d : insert_all l d = list_to_set l ∪ d.
Proof.
  revert d. unfold insert_all.
  induction l as [|x l IH]; intros d; simpl; [set_solver|].
  rewrite IH, insert_union. set_solver.
Qed.

(** The values of the set after the insertions into an empty set are the
    inserted values without duplicates. *)
Lemma insert_all_elements (l : list T) :
  elements (insert_all l ∅) ≡ₚ remove_dups l.
Proof.
  apply NoDup_Permutation.
  - apply NoDup_elements.
  - apply NoDup_remove_dups.
  - intros x. rewrite elem_of_elements, insert_all_union, elem_of_remove_dups.
    set_solver.
Qed.

(** A sequence of [insert] calls, of either overload, by any threads. *)
Lemma set_run_inserts (l : list (thread_id * (bool * T))) σ d :
  holds σ d →
  ∃ σ',
    run method (set_inserts l) σ = Some (replicate (length l) ret_void, σ')
    ∧ holds σ' (insert_all l.*2.*2 d)
    ∧ frame σ σ'.
Proof.
  revert σ d. induction l as [|[t [b x]] l IH]; intros σ d Hh.
  - exists σ. split_and!; [done..|apply frame_refl].
  - pose proof (holds_set_contents σ (if decide (x ∈ d) then d else {[x]} ∪ d))
      as Hh1.
    destruct (IH _ _ Hh1) as (σ' & Hrun & Hh' & Hf).
    exists σ'. unfold set_inserts in *. rewrite fmap_cons, run_cons.
    destruct b; cbn [fst snd method]; rewrite exec_bind.
    + rewrite (set_exec_insert_rvalue _ _ _ _ Hh).
      cbn [exec]. rewrite Hrun. split_and!; [done..|].
      eapply frame_trans; [apply frame_set_contents|done].
    + rewrite (set_exec_insert _ _ _ _ Hh).
      cbn [exec]. rewrite Hrun. split_and!; [done..|].
      eapply frame_trans; [apply frame_set_contents|done].
Qed.
End set_methods.

(** ** Interleaved execution: the lock discipline *)

Section interleaving.
Context {Data Call Result : Type} (method : Call → prog Data Result).
Hypothesis method_guarded : ∀ c, guarded false (method c).
Implicit Types (σ : state Data) (P : thread_id → thread Data Call Result).
Implicit Types (c : config Data Call Result).

Lemma step_disciplined t e c c' :
  disciplined c → step method t e c c' → disciplined c'.
Proof.
  unfold disciplined, owns.
  intros Hinv Hstep t'. pose proof (Hinv t) as Ht. pose proof (Hinv t') as Ht'.
  destruct Hstep as [cl σ P HP|cl k σ P HP Hm|X cl act k x h σ P HP Hact
                    |cl k σ P HP Hm|cl r σ P HP];
    simpl in *; rewrite HP in Ht; simpl in Ht;
    (destruct (decide (t = t')) as [<-|Hne];
     [rewrite fn_lookup_insert|rewrite fn_lookup_insert_ne by done]).
  - rewrite bool_decide_eq_false_2 by done. apply method_guarded.
  - done.
  - rewrite bool_decide_eq_true_2 by done. apply Ht.
  - destruct (P t') as [|cl' p]; [congruence|].
    rewrite Hm in Ht'. rewrite ?bool_decide_eq_false_2 in Ht' by done.
    by rewrite bool_decide_eq_false_2 by congruence.
  - destruct Ht as [Ho Hk]. rewrite Ho. apply Hk.
  - done.
  - rewrite ?bool_decide_eq_false_2 by done. apply Ht.
  - destruct (P t') as [|cl' p]; [done|].
    rewrite Hm in Ht'. rewrite bool_decide_eq_false_2 in Ht' by congruence.
    by rewrite ?bool_decide_eq_false_2 by done.
  - intros Hm. by rewrite bool_decide_eq_true_2 in Ht by done.
  - done.
Qed.

Lemma reachable_disciplined c : reachable method c → disciplined c.
Proof.
  induction 1 as [σ [Hm _]|t e c c' _ IH Hstep].
  - intros t. simpl. by rewrite Hm.
  - by eapply step_disciplined.
Qed.

(** A thread inside a critical section owns the mutex. *)
Lemma critical_section_owner c t :
  reachable method c → in_critical_section (c.2 t) → m_mutex c.1 = Some t.
Proof.
  intros Hreach Hcs. pose proof (reachable_disciplined c Hreach t) as Ht.
  unfold owns in Ht.
  destruct (c.2 t) as [|cl [r|k|k|X act k]]; simpl in *; try done.
  - destruct Ht as [Ht _]. by apply bool_decide_eq_true_1 in Ht.
  - destruct Ht as [Ht _]. by apply bool_decide_eq_true_1 in Ht.
Qed.

(** Critical sections exclude each other. *)
Lemma critical_sections_exclusive c t1 t2 :
  reachable method c →
  in_critical_section (c.2 t1) → in_critical_section (c.2 t2) → t1 = t2.
Proof.
  intros Hreach H1 H2.
  pose proof (critical_section_owner c t1 Hreach H1).
  pose proof (critical_section_owner c t2 Hreach H2).
  congruence.
Qed.

(** A thread operates on [m_data] only while it owns the mutex, and then
    every other thread is outside its critical section. *)
Lemma access_owner c c' t :
  reachable method c → step method t ev_access c c' →
  m_mutex c.1 = Some t
  ∧ ∀ t', t' ≠ t → ¬ in_critical_section (c.2 t').
Proof.
  intros Hreach Hstep.
  assert (in_critical_section (c.2 t)) as Hcs.
  { inversion Hstep as [| |X cl act k x h σ P HP Hact| |]; subst. simpl.
    by rewrite HP. }
  split; [by apply critical_section_owner|].
  intros t' Hne Hcs'. apply Hne.
  by eapply critical_sections_exclusive.
Qed.

(** The mutex is acquired only when no thread is in a critical section. *)
Lemma lock_when_free c c' t cl :
  reachable method c → step method t (ev_lock cl) c c' →
  ∀ t', ¬ in_critical_section (c.2 t').
Proof.
  intros Hreach Hstep t' Hcs.
  pose proof (critical_section_owner c t' Hreach Hcs) as Hown.
  inversion Hstep as [|cl' k σ P HP Hm| | |]; subst. simpl in *. congruence.
Qed.
End interleaving.

Lemma map_method_guarded `{Countable K} {V : Type}
    (c : concurrent_unordered_map.call K V) :
  guarded false (concurrent_unordered_map.method c).
Proof. destruct c; simpl; auto. Qed.

Lemma set_method_guarded `{Countable T} (c : concurrent_unordered_set.call T) :
  guarded false (concurrent_unordered_set.method c).
Proof. destruct c; simpl; auto. Qed.

(** ** One round: insertions, then consume *)

Section rounds.
Context `{Countable K} {V : Type} `{Countable T}.

(** A round on a map accumulator that holds [d]. *)
Lemma map_round (l : list (thread_id * (K * V))) t (σ : state (gmap K V)) d :
  holds σ d →
  ∃ r σ',
    run concurrent_unordered_map.method
      (map_inserts l ++ [(t, concurrent_unordered_map.call_consume)]) σ
    = Some (replicate (length l) ret_void ++ [ret_container r], σ')
    ∧ holds σ' ∅
    ∧ heap σ !! r = None
    ∧ heap σ' !! r = Some (insert_or_assign_all l.*2 d)
    ∧ frame σ σ'.
Proof.
  intros Hh.
  destruct (map_run_inserts l σ d Hh) as (σ1 & Hrun & Hh1 & Hf1).
  destruct (guarded_move_spec t σ1 _ Hh1)
    as (r & σ' & Hex & Hh' & Hm & Hne & Hnone & Hr & Hf).
  exists r, σ'. rewrite run_app, Hrun, run_singleton.
  cbn [concurrent_unordered_map.method].
  rewrite exec_bind. unfold concurrent_unordered_map.consume. rewrite Hex.
  split_and!; [done..| | |].
  - destruct Hf1 as [Hm1 Hf1]. destruct (heap σ !! r) as [d'|] eqn:Hσr; [|done].
    rewrite <-(Hf1 r), Hnone in Hσr; [done|congruence|by eexists].
  - done.
  - by eapply frame_trans.
Qed.

(** A round on a set accumulator that holds [d]. *)
Lemma set_round (l : list (thread_id * (bool * T))) t (σ : state (gset T)) d :
  holds σ d →
  ∃ r σ',
    run concurrent_unordered_set.method
      (set_inserts l ++ [(t, concurrent_unordered_set.call_consume)]) σ
    = Some (replicate (length l) ret_void ++ [ret_container r], σ')
    ∧ holds σ' ∅
    ∧ heap σ !! r = None
    ∧ heap σ' !! r = Some (insert_all l.*2.*2 d)
    ∧ frame σ σ'.
Proof.
  intros Hh.
  destruct (set_run_inserts l σ d Hh) as (σ1 & Hrun & Hh1 & Hf1).
  destruct (guarded_move_spec t σ1 _ Hh1)
    as (r & σ' & Hex & Hh' & Hm & Hne & Hnone & Hr & Hf).
  exists r, σ'. rewrite run_app, Hrun, run_singleton.
  cbn [concurrent_unordered_set.method].
  rewrite exec_bind. unfold concurrent_unordered_set.consume. rewrite Hex.
  split_and!; [done..| | |].
  - destruct Hf1 as [Hm1 Hf1]. destruct (heap σ !! r) as [d'|] eqn:Hσr; [|done].
    rewrite <-(Hf1 r), Hnone in Hσr; [done|congruence|by eexists].
  - done.
  - by eapply frame_trans.
Qed.
End rounds.

Section consume_inversion.
Context {Data : Type} `{Empty Data, Size Data}.
Implicit Types (σ : state Data) (d : Data).

(** What is known when the guarded move has returned. *)
Lemma guarded_move_inv t σ r σ' :
  exec t (lock_guard (access move_construct)) σ = Some (r, σ') →
  ∃ d,
    holds σ d
    ∧ holds σ' ∅
    ∧ m_data σ' = m_data σ
    ∧ r ≠ m_data σ
    ∧ heap σ !! r = None
    ∧ heap σ' !! r = Some d
    ∧ frame σ σ'.
Proof.
  intros Hex. destruct (guarded_move_returns _ _ _ _ Hex) as [d Hh].
  destruct (guarded_move_spec t σ d Hh)
    as (r' & σ'' & Hex' & Hh' & Hm & Hne & Hnone & Hr & Hf).
  rewrite Hex in Hex'. injection Hex' as -> ->.
  exists d. by split_and!.
Qed.
End consume_inversion.

(** ** Interleaved execution: calls take effect in the order of their
    acquisitions of the mutex *)

Section linearization.
Context {Data Call Result : Type} (method : Call → prog Data Result).
Hypothesis method_atomic : ∀ c, atomic (method c).
Hypothesis method_returns : ∀ t c σ d,
  holds σ d →
  ∃ res σ' d', exec t (method c) σ = Some (res, σ') ∧ holds σ' d' ∧ frame σ σ'.
Implicit Types (σ : state Data) (P : thread_id → thread Data Call Result).
Implicit Types (c : config Data Call Result).

Lemma outside_Lock_or_Ret cl (p : prog Data Result) :
  outside method (Running cl p) → (∃ k, p = Lock k) ∨ (∃ r, p = Ret r).
Proof.
  intros [->|Hret]; [|by right].
  pose proof (method_atomic cl) as Ha.
  destruct (method cl) as [|k| |]; try done. left. by exists k.
Qed.

Lemma linearized_step σ0 calls c t e c' :
  linearized method σ0 calls c → step method t e c c' →
  linearized method σ0 (calls ++ acquisition t e) c'.
Proof.
  intros (rs & σe & d & Hrun & Hh & Hm) Hstep.
  destruct Hstep as [cl σ P HP|cl k σ P HP Hlock|X cl act k x h σ P HP Hact
                    |cl k σ P HP Hown|cl r σ P HP]; simpl in *.
  - (* call *)
    rewrite app_nil_r. exists rs, σe, d. split_and!; [done..|]. simpl.
    destruct (m_mutex σ) as [t0|].
    + destruct Hm as [(cl0 & p & r & HP0 & Hp & Hex) Hout].
      assert (t ≠ t0) as Hne by congruence.
      split.
      * exists cl0, p, r. by rewrite fn_lookup_insert_ne.
      * intros t' Hne'. destruct (decide (t = t')) as [<-|?].
        -- rewrite fn_lookup_insert. by left.
        -- rewrite fn_lookup_insert_ne by done. by apply Hout.
    + destruct Hm as [-> Hout]. split; [done|].
      intros t'. destruct (decide (t = t')) as [<-|?].
      * rewrite fn_lookup_insert. by left.
      * by rewrite fn_lookup_insert_ne.
  - (* lock *)
    rewrite Hlock in Hm. destruct Hm as [-> Hout].
    pose proof (Hout t) as Ht. rewrite HP in Ht.
    destruct Ht as [Heq|[r [=]]].
    destruct (method_returns t cl σe d Hh) as (res & σ' & d' & Hex & Hh' & _).
    exists (rs ++ [res]), σ', d'. split_and!; [|done|]; simpl.
    + by rewrite run_app, Hrun, run_singleton, Hex.
    + split.
      * exists cl, k, res. rewrite fn_lookup_insert. split_and!; [done| |].
        -- pose proof (method_atomic cl) as Ha. by rewrite <-Heq in Ha.
        -- rewrite <-Heq in Hex. simpl in Hex. by rewrite Hlock in Hex.
      * intros t' Hne. rewrite fn_lookup_insert_ne by done. apply Hout.
  - (* access *)
    rewrite app_nil_r. exists rs, σe, d. split_and!; [done..|]. simpl.
    destruct (m_mutex σ) as [t0|].
    + destruct Hm as [(cl0 & p & r & HP0 & Hp & Hex) Hout].
      destruct (decide (t = t0)) as [<-|Hne].
      * rewrite HP in HP0. injection HP0 as <- <-.
        split.
        -- exists cl, (k x), r. rewrite fn_lookup_insert.
           split_and!; [done|apply Hp|].
           simpl in Hex. by rewrite Hact in Hex.
        -- intros t' Hne'. rewrite fn_lookup_insert_ne by done. by apply Hout.
      * pose proof (Hout t Hne) as Ht. rewrite HP in Ht.
        by apply outside_Lock_or_Ret in Ht as [[? [=]]|[? [=]]].
    + destruct Hm as [_ Hout]. pose proof (Hout t) as Ht. rewrite HP in Ht.
      by apply outside_Lock_or_Ret in Ht as [[? [=]]|[? [=]]].
  - (* unlock *)
    rewrite app_nil_r. exists rs, σe, d. split_and!; [done..|]. simpl.
    rewrite Hown in Hm. destruct Hm as [(cl0 & p & r & HP0 & Hp & Hex) Hout].
    rewrite HP in HP0. injection HP0 as <- <-.
    destruct k as [r'| | |]; try done.
    simpl in Hex. rewrite decide_True in Hex by done. injection Hex as <- <-.
    split; [done|]. intros t'. destruct (decide (t = t')) as [<-|?].
    + rewrite fn_lookup_insert. right. by eexists.
    + rewrite fn_lookup_insert_ne by done. by apply Hout.
  - (* return *)
    rewrite app_nil_r. exists rs, σe, d. split_and!; [done..|]. simpl.
    destruct (m_mutex σ) as [t0|].
    + destruct Hm as [(cl0 & p & r0 & HP0 & Hp & Hex) Hout].
      assert (t ≠ t0) as Hne.
      { intros ->. rewrite HP in HP0. injection HP0 as <- <-. done. }
      split.
      * exists cl0, p, r0. by rewrite fn_lookup_insert_ne.
      * intros t' Hne'. destruct (decide (t = t')) as [<-|?].
        -- by rewrite fn_lookup_insert.
        -- rewrite fn_lookup_insert_ne by done. by apply Hout.
    + destruct Hm as [-> Hout]. split; [done|].
      intros t'. destruct (decide (t = t')) as [<-|?].
      * by rewrite fn_lookup_insert.
      * by rewrite fn_lookup_insert_ne.
Qed.

Lemma execution_linearized σ0 d0 calls c :
  holds σ0 d0 →
  execution method (σ0, λ _, Idle) calls c →
  linearized method σ0 calls c.
Proof.
  intros Hh Hexec. remember (σ0, λ _ : thread_id, Idle) as c0 eqn:Hc0.
  induction Hexec as [c|c1 calls c2 t e c3 _ IH Hstep]; subst.
  - exists [], σ0, d0. simpl. destruct Hh as [Hm Hd]. rewrite Hm.
    by split_and!.
  - eapply linearized_step; [by apply IH|done].
Qed.

(** When the threads have made their calls in some interleaving and all
    of them have returned, the accumulator and the containers of the
    program are as after the same calls made one after the other, in the
    order in which they acquired the mutex. *)
Lemma interleaving_linearizable σ0 d0 calls σ P :
  holds σ0 d0 →
  execution method (σ0, λ _, Idle) calls (σ, P) →
  (∀ t, P t = Idle) →
  ∃ rs, run method calls σ0 = Some (rs, σ).
Proof.
  intros Hh Hexec Hidle.
  destruct (execution_linearized _ _ _ _ Hh Hexec)
    as (rs & σe & d & Hrun & _ & Hm).
  exists rs. simpl in Hm. destruct (m_mutex σ) as [t|].
  - destruct Hm as [(cl & p & r & HP & _) _]. by rewrite Hidle in HP.
  - destruct Hm as [-> _]. done.
Qed.

Lemma execution_app c1 calls1 c2 calls2 c3 :
  execution method c1 calls1 c2 → execution method c2 calls2 c3 →
  execution method c1 (calls1 ++ calls2) c3.
Proof.
  intros H1 H2. induction H2 as [c|c2 calls2 c3 t e c4 _ IH Hstep].
  - by rewrite app_nil_r.
  - rewrite app_assoc. eapply execution_step; [by apply IH|done].
Qed.

Lemma execution_one t e c c' :
  step method t e c c' → execution method c (acquisition t e) c'.
Proof.
  intros Hstep.
  apply (execution_step method c [] c t e c' (execution_refl method c) Hstep).
Qed.

(** A thread in its critical section runs to its return when no other
    thread is scheduled. *)
Lemma critical_execution t cl (p : prog Data Result) σ P r σ' :
  critical p → exec t p σ = Some (r, σ') → P t = Running cl p →
  ∃ P',
    execution method (σ, P) [] (σ', P')
    ∧ P' t = Running cl (Ret r)
    ∧ ∀ t', t' ≠ t → P' t' = P t'.
Proof.
  revert σ P. induction p as [a|k IH|k IH|X act k IH]; intros σ P Hp Hex HP;
    simpl in Hp; try done.
  - destruct k as [a| | |]; try done. simpl in Hex.
    case_decide as Hown; [|done]. injection Hex as <- <-.
    exists (<[t := Running cl (Ret a)]> P). split_and!.
    + apply (execution_one t ev_unlock). by constructor.
    + by rewrite fn_lookup_insert.
    + intros t' Hne. by rewrite fn_lookup_insert_ne.
  - simpl in Hex. destruct (act (m_data σ) (heap σ)) as [[x h]|] eqn:Hact; [|done].
    destruct (IH x (set_heap h σ) (<[t := Running cl (k x)]> P) (Hp x) Hex)
      as (P' & Hexec & HP' & Hother); [by rewrite fn_lookup_insert|].
    exists P'. split_and!; [|done|].
    + eapply (execution_app _ [] _ []); [|done].
      apply (execution_one t ev_access). by econstructor.
    + intros t' Hne. rewrite Hother by done. by rewrite fn_lookup_insert_ne.
Qed.

(** A call made while no call is in progress is an execution of the
    calling thread alone. *)
Lemma call_execution t cl σ P r σ' :
  exec t (method cl) σ = Some (r, σ') → P t = Idle →
  ∃ P',
    execution method (σ, P) [(t, cl)] (σ', P')
    ∧ P' t = Idle
    ∧ ∀ t', t' ≠ t → P' t' = P t'.
Proof.
  intros Hex HP. pose proof (method_atomic cl) as Ha.
  destruct (method cl) as [|k| |] eqn:Hmethod; try done. simpl in Ha, Hex.
  destruct (m_mutex σ) eqn:Hm; [done|].
  set (P1 := <[t := Running cl (method cl)]> P).
  set (P2 := <[t := Running cl k]> P1).
  destruct (critical_execution t cl k (set_mutex (Some t) σ) P2 r σ' Ha Hex)
    as (P' & Hexec & HP' & Hother); [by unfold P2; rewrite fn_lookup_insert|].
  assert (execution method (σ, P) [] (σ, P1)) as H1.
  { apply (execution_one t (ev_call cl)). by constructor. }
  assert (execution method (σ, P1) [(t, cl)] (set_mutex (Some t) σ, P2)) as H2.
  { apply (execution_one t (ev_lock cl)). constructor; [|done].
    unfold P1. by rewrite fn_lookup_insert, Hmethod. }
  assert (execution method (σ', P') [] (σ', <[t := Idle]> P')) as H4.
  { apply (execution_one t (ev_return r)). by econstructor. }
  exists (<[t := Idle]> P'). split_and!.
  - pose proof (execution_app _ _ _ _ _
      (execution_app _ _ _ _ _ (execution_app _ _ _ _ _ H1 H2) Hexec) H4)
      as Hall.
    exact Hall.
  - by rewrite fn_lookup_insert.
  - intros t' Hne. rewrite fn_lookup_insert_ne by done.
    rewrite Hother by done. unfold P2, P1. by rewrite !fn_lookup_insert_ne.
Qed.

(** Calls made one after the other are one of the interleavings. *)
Lemma run_execution calls σ P rs σ' :
  run method calls σ = Some (rs, σ') → (∀ t, P t = Idle) →
  ∃ P', execution method (σ, P) calls (σ', P') ∧ ∀ t, P' t = Idle.
Proof.
  revert σ P rs. induction calls as [|[t cl] calls IH]; intros σ P rs Hrun Hidle.
  - injection Hrun as <- <-. exists P. split; [constructor|done].
  - rewrite run_cons in Hrun.
    destruct (exec t (method cl) σ) as [[r σ1]|] eqn:Hex; [|done].
    destruct (run method calls σ1) as [[rs1 σ2]|] eqn:Hrun1; [|done].
    injection Hrun as <- <-.
    destruct (call_execution t cl σ P r σ1 Hex (Hidle t))
      as (P1 & Hexec1 & HP1 & Hother).
    destruct (IH σ1 P1 rs1 Hrun1) as (P2 & Hexec2 & Hidle2).
    { intros t'. destruct (decide (t' = t)) as [->|Hne]; [done|].
      by rewrite Hother. }
    exists P2. split; [|done].
    by eapply (execution_app _ [(t, cl)] _ calls).
Qed.
End linearization.

Lemma map_method_atomic `{Countable K} {V : Type}
    (c : concurrent_unordered_map.call K V) :
  atomic (concurrent_unordered_map.method c).
Proof. by destruct c. Qed.

Lemma set_method_atomic `{Countable T} (c : concurrent_unordered_set.call T) :
  atomic (concurrent_unordered_set.method c).
Proof. by destruct c. Qed.

(** ** Interleaved execution: the other containers are left alone *)

Section interleaving_frame.
Context {Data : Type} `{Empty Data, Size Data}.
Implicit Types (σ : state Data) (h : gmap addr Data).

Lemma container_empty_respects_frame :
  respects_frame (Data := Data) container_empty.
Proof.
  intros this h x h' Hact a _ _. unfold container_empty in Hact.
  destruct (h !! this); simplify_eq/=. done.
Qed.

Lemma container_size_respects_frame :
  respects_frame (Data := Data) container_size.
Proof.
  intros this h x h' Hact a _ _. unfold container_size in Hact.
  destruct (h !! this); simplify_eq/=. done.
Qed.

Lemma move_construct_respects_frame :
  respects_frame (Data := Data) move_construct.
Proof.
  intros this h x h' Hact a Hne Hlive. unfold move_construct in Hact.
  destruct (h !! this) as [d|]; simplify_eq/=.
  rewrite lookup_insert_ne by done.
  rewrite lookup_insert_ne; [done|].
  intros Heq. by apply (fresh_not_live _ _ Hlive).
Qed.

Lemma update_respects_frame (f : Data → Data) :
  respects_frame (λ a h, d ← h !! a; Some (tt, <[a := f d]> h)).
Proof.
  intros this h x h' Hact a Hne _.
  destruct (h !! this) as [d|]; simplify_eq/=. by rewrite lookup_insert_ne.
Qed.

Context {Call Result : Type} (method : Call → prog Data Result).
Hypothesis method_local : ∀ c, local (method c).
Implicit Types (c : config Data Call Result).
Implicit Types (P : thread_id → thread Data Call Result).

Lemma all_local_running σ σ' P t (cl : Call) (p : prog Data Result) :
  all_local (σ, P) → local p → all_local (σ', <[t := Running cl p]> P).
Proof.
  intros Hloc Hp t'. simpl. destruct (decide (t = t')) as [<-|Hne].
  - by rewrite fn_lookup_insert.
  - rewrite fn_lookup_insert_ne by done. apply Hloc.
Qed.

Lemma all_local_idle σ σ' (P : thread_id → thread Data Call Result) t :
  all_local (σ, P) → all_local (σ', <[t := Idle]> P).
Proof.
  intros Hloc t'. simpl. destruct (decide (t = t')) as [<-|Hne].
  - by rewrite fn_lookup_insert.
  - rewrite fn_lookup_insert_ne by done. apply Hloc.
Qed.

Lemma step_frame t e c c' :
  all_local c → step method t e c c' → all_local c' ∧ frame c.1 c'.1.
Proof.
  intros Hloc Hstep. pose proof (Hloc t) as Ht.
  destruct Hstep as [cl σ P HP|cl k σ P HP Hm|X cl act k x h σ P HP Hact
                    |cl k σ P HP Hm|cl r σ P HP];
    simpl in *; rewrite HP in Ht; simpl in Ht.
  - split; [|by split]. by eapply all_local_running.
  - split; [|by split]. by eapply all_local_running.
  - destruct Ht as [Hact_frame Hk]. split; [by eapply all_local_running|].
    split; [done|]. intros a. simpl. by apply (Hact_frame _ _ _ _ Hact).
  - split; [|by split]. by eapply all_local_running.
  - split; [|by split]. by eapply all_local_idle.
Qed.

Lemma execution_frame c calls c' :
  all_local c → execution method c calls c' → all_local c' ∧ frame c.1 c'.1.
Proof.
  intros Hloc Hexec. induction Hexec as [c|c1 calls c2 t e c3 _ IH Hstep].
  - split; [done|apply frame_refl].
  - destruct (IH Hloc) as [Hloc2 Hf12].
    destruct (step_frame _ _ _ _ Hloc2 Hstep) as [Hloc3 Hf23].
    split; [done|by eapply frame_trans].
Qed.

(** From a configuration in which all threads are outside calls, the
    threads leave every live container other than [m_data] as it is. *)
Lemma execution_preserves_container σ calls c' a d :
  a ≠ m_data σ → heap σ !! a = Some d →
  execution method (σ, λ _, Idle) calls c' →
  heap c'.1 !! a = Some d.
Proof.
  intros Hne Ha Hexec.
  destruct (execution_frame (σ, λ _, Idle) calls c') as [_ [_ Hf]]; [done..|].
  rewrite <-Ha. apply Hf; [done|]. simpl. by rewrite Ha.
Qed.
End interleaving_frame.

Lemma map_method_local `{Countable K} {V : Type}
    (c : concurrent_unordered_map.call K V) :
  local (concurrent_unordered_map.method c).
Proof.
  destruct c as [k v| | |]; simpl; split; try done.
  - apply (update_respects_frame (λ d, <[k := v]> d)).
  - apply container_empty_respects_frame.
  - apply container_size_respects_frame.
  - apply move_construct_respects_frame.
Qed.

Lemma set_method_local `{Countable T} (c : concurrent_unordered_set.call T) :
  local (concurrent_unordered_set.method c).
Proof.
  destruct c as [x|x| | |]; simpl; split; try done.
  - apply (update_respects_frame (λ d, if decide (x ∈ d) then d else {[x]} ∪ d)).
  - apply (update_respects_frame (λ d, if decide (x ∈ d) then d else {[x]} ∪ d)).
  - apply container_empty_respects_frame.
  - apply container_size_respects_frame.
  - apply move_construct_respects_frame.
Qed.

(** ** Single calls *)

Section single_calls.
Context {Data : Type} `{Empty Data, Size Data}.
Implicit Types (σ : state Data) (d : Data).

Lemma set_contents_id σ d : holds σ d → set_contents d σ = σ.
Proof.
  destruct σ as [h a m]. unfold holds, contents, set_contents. simpl.
  intros [-> Hd]. f_equal. by apply insert_id.
Qed.

Lemma guarded_empty_returns t σ b σ' :
  exec t (lock_guard (access container_empty)) σ = Some (b, σ') →
  quiescent σ.
Proof.
  intros Hex. pose proof (exec_lock_guard_returns _ _ _ _ _ Hex) as Hm.
  rewrite exec_lock_guard_access in Hex by done.
  unfold container_empty in Hex. split; [done|]. unfold contents.
  destruct (heap σ !! m_data σ) as [d|]; [by eexists|done].
Qed.

Lemma guarded_size_returns t σ n σ' :
  exec t (lock_guard (access container_size)) σ = Some (n, σ') →
  quiescent σ.
Proof.
  intros Hex. pose proof (exec_lock_guard_returns _ _ _ _ _ Hex) as Hm.
  rewrite exec_lock_guard_access in Hex by done.
  unfold container_size in Hex. split; [done|]. unfold contents.
  destruct (heap σ !! m_data σ) as [d|]; [by eexists|done].
Qed.

(** The two observers return when no call is in progress, return only
    then, agree with each other and change nothing. *)
Lemma guarded_observers t σ :
  (quiescent σ →
   ∃ n,
     exec t (lock_guard (access container_size)) σ = Some (n, σ)
     ∧ exec t (lock_guard (access container_empty)) σ
       = Some (bool_decide (n = 0), σ))
  ∧ (∀ b σ',
       exec t (lock_guard (access container_empty)) σ = Some (b, σ') →
       σ' = σ ∧ quiescent σ)
  ∧ (∀ n σ',
       exec t (lock_guard (access container_size)) σ = Some (n, σ') →
       σ' = σ ∧ quiescent σ).
Proof.
  assert (∀ d, holds σ d →
    exec t (lock_guard (access container_size)) σ = Some (base.size d, σ)
    ∧ exec t (lock_guard (access container_empty)) σ
      = Some (bool_decide (base.size d = 0), σ)) as Hobs.
  { intros d Hh. by rewrite (exec_guarded_size t σ d Hh),
                            (exec_guarded_empty t σ d Hh). }
  split_and!.
  - intros [d Hh]%quiescent_holds. exists (base.size d). by apply Hobs.
  - intros b σ' Hex. pose proof (guarded_empty_returns _ _ _ _ Hex) as Hq.
    split; [|done]. destruct (quiescent_holds _ Hq) as [d Hh].
    destruct (Hobs d Hh) as [_ Hex']. congruence.
  - intros n σ' Hex. pose proof (guarded_size_returns _ _ _ _ Hex) as Hq.
    split; [|done]. destruct (quiescent_holds _ Hq) as [d Hh].
    destruct (Hobs d Hh) as [Hex' _]. congruence.
Qed.

(** A property of the contents that every call of a class [allowed]
    preserves, is preserved by sequences of such calls. *)
Section run_preserves.
Context {Call Result : Type} (method : Call → prog Data Result).
Context (allowed : Call → Prop) (R : Data → Data → Prop).
Hypothesis R_refl : ∀ d, R d d.
Hypothesis R_trans : ∀ d1 d2 d3, R d1 d2 → R d2 d3 → R d1 d3.
Hypothesis method_preserves : ∀ t c σ d,
  allowed c → holds σ d →
  ∃ res σ' d', exec t (method c) σ = Some (res, σ') ∧ holds σ' d' ∧ R d d'.

Lemma run_preserves calls σ d :
  Forall (λ tc, allowed tc.2) calls → holds σ d →
  ∃ rs σ' d', run method calls σ = Some (rs, σ') ∧ holds σ' d' ∧ R d d'.
Proof.
  intros Hall. revert σ d.
  induction Hall as [|[t c] calls Hc _ IH]; intros σ d Hh.
  - by exists [], σ, d.
  - destruct (method_preserves t c σ d Hc Hh)
      as (r & σ1 & d1 & Hex & Hh1 & HR1).
    destruct (IH σ1 d1 Hh1) as (rs & σ2 & d2 & Hrun & Hh2 & HR2).
    exists (r :: rs), σ2, d2. rewrite run_cons, Hex, Hrun. eauto.
Qed.
End run_preserves.
End single_calls.

Lemma occurrences_not_in `{EqDecision A} (x : A) (l : list A) :
  x ∉ l → occurrences x l = 0.
Proof.
  unfold occurrences. induction l as [|y l IH]; [done|].
  rewrite not_elem_of_cons. intros [Hne Hnin].
  rewrite filter_cons_False by done. by apply IH.
Qed.

Lemma occurrences_NoDup `{EqDecision A} (x : A) (l : list A) :
  NoDup l → x ∈ l → occurrences x l = 1.
Proof.
  unfold occurrences. induction 1 as [|y l Hnin Hnd IH]; [by rewrite elem_of_nil|].
  rewrite elem_of_cons. destruct (decide (y = x)) as [->|Hne].
  - intros _. rewrite filter_cons_True by done. simpl. f_equal.
    by apply occurrences_not_in.
  - intros [->|Hin]; [done|]. rewrite filter_cons_False by done. by apply IH.
Qed.

(** ** How the number of entries evolves *)

Section sizes.
Context `{Countable K} {V : Type} `{Countable T}.

Lemma map_insert_size (d : gmap K V) k v :
  size (<[k := v]> d) = if decide (k ∈ dom d) then size d else S (size d).
Proof.
  rewrite map_size_insert. case_decide as Hk.
  - apply elem_of_dom in Hk as [v' ->]. done.
  - apply not_elem_of_dom in Hk as ->. done.
Qed.

Lemma set_insert_size (d : gset T) x :
  size (if decide (x ∈ d) then d else {[x]} ∪ d)
  = if decide (x ∈ d) then size d else S (size d).
Proof.
  case_decide as Hx; [done|].
  rewrite size_union by set_solver. by rewrite size_singleton.
Qed.

Lemma map_method_grows t (c : concurrent_unordered_map.call K V) σ d :
  c ≠ concurrent_unordered_map.call_consume → holds σ d →
  ∃ res σ' d',
    exec t (concurrent_unordered_map.method c) σ = Some (res, σ')
    ∧ holds σ' d' ∧ size d ≤ size d'.
Proof.
  intros Hc Hh.
  destruct c as [k v| | |]; [| | |done];
    unfold concurrent_unordered_map.method; rewrite exec_bind.
  - rewrite (map_exec_insert_or_assign _ _ _ _ _ Hh).
    eexists _, _, _. split_and!; [done|apply holds_set_contents|].
    rewrite map_insert_size. case_decide; lia.
  - rewrite (map_exec_empty _ _ _ Hh). by eexists _, _, _.
  - rewrite (map_exec_size _ _ _ Hh). by eexists _, _, _.
Qed.

Lemma set_method_grows t (c : concurrent_unordered_set.call T) σ d :
  c ≠ concurrent_unordered_set.call_consume → holds σ d →
  ∃ res σ' d',
    exec t (concurrent_unordered_set.method c) σ = Some (res, σ')
    ∧ holds σ' d' ∧ size d ≤ size d'.
Proof.
  intros Hc Hh.
  destruct c as [x|x| | |]; [| | | |done];
    unfold concurrent_unordered_set.method; rewrite exec_bind.
  - rewrite (set_exec_insert _ _ _ _ Hh).
    eexists _, _, _. split_and!; [done|apply holds_set_contents|].
    rewrite set_insert_size. case_decide; lia.
  - rewrite (set_exec_insert_rvalue _ _ _ _ Hh).
    eexists _, _, _. split_and!; [done|apply holds_set_contents|].
    rewrite set_insert_size. case_decide; lia.
  - rewrite (set_exec_empty _ _ _ Hh). by eexists _, _, _.
  - rewrite (set_exec_size _ _ _ Hh). by eexists _, _, _.
Qed.
End sizes.

(** ** Rounds with concurrent insertions *)

(** Threads insert into a new map accumulator in any interleaving; when
    all of them have returned (the barrier), [consume] returns the
    last-writer-wins union of the inserted entries, the last writer for a
    key being the last one to have acquired the mutex. *)
Lemma map_concurrent_round `{Countable K} {V : Type}
    (h : gmap addr (gmap K V)) (l : list (thread_id * (K * V))) σ P t :
  execution concurrent_unordered_map.method
    (construct h, λ _, Idle) (map_inserts l) (σ, P) →
  (∀ t', P t' = Idle) →
  ∃ r σ' m,
    exec t concurrent_unordered_map.consume σ = Some (r, σ')
    ∧ heap σ' !! r = Some m
    ∧ map_to_list m ≡ₚ last_writer_wins l.*2.
Proof.
  intros Hexec Hidle.
  destruct (interleaving_linearizable concurrent_unordered_map.method
              map_method_atomic (λ t c σ d, map_method_returns t c σ d)
              _ _ _ _ _ (construct_holds h) Hexec Hidle) as [rs Hrun].
  destruct (map_run_inserts l _ _ (construct_holds h)) as (σ1 & Hrun1 & Hh1 & _).
  assert (σ1 = σ) as -> by congruence.
  destruct (guarded_move_spec t σ _ Hh1) as (r & σ' & Hex & _ & _ & _ & _ & Hr & _).
  exists r, σ', (insert_or_assign_all l.*2 ∅).
  split_and!; [done..|apply insert_or_assign_all_entries].
Qed.

(** The same for the set accumulator: [consume] returns the inserted
    values without duplicates, whatever the interleaving. *)
Lemma set_concurrent_round `{Countable T}
    (h : gmap addr (gset T)) (l : list (thread_id * (bool * T))) σ P t :
  execution concurrent_unordered_set.method
    (construct h, λ _, Idle) (set_inserts l) (σ, P) →
  (∀ t', P t' = Idle) →
  ∃ r σ' s,
    exec t concurrent_unordered_set.consume σ = Some (r, σ')
    ∧ heap σ' !! r = Some s
    ∧ elements s ≡ₚ remove_dups l.*2.*2.
Proof.
  intros Hexec Hidle.
  destruct (interleaving_linearizable concurrent_unordered_set.method
              set_method_atomic (λ t c σ d, set_method_returns t c σ d)
              _ _ _ _ _ (construct_holds h) Hexec Hidle) as [rs Hrun].
  destruct (set_run_inserts l _ _ (construct_holds h)) as (σ1 & Hrun1 & Hh1 & _).
  assert (σ1 = σ) as -> by congruence.
  destruct (guarded_move_spec t σ _ Hh1) as (r & σ' & Hex & _ & _ & _ & _ & Hr & _).
  exists r, σ', (insert_all l.*2.*2 ∅).
  split_and!; [done..|apply insert_all_elements].
Qed.

(** An interleaving of the two racing insertions: both threads call,
    thread 1 acquires the mutex, inserts and releases; thread 0 acquires the
    mutex before thread 1 has returned, inserts and releases; both
    return. *)
Lemma examples_racing_execution :
  ∃ P,
    execution concurrent_unordered_map.method
      (examples.fresh_map, λ _, Idle) examples.racing (examples.holding, P)
    ∧ ∀ t, P t = Idle.
Proof.
  pose (c10 := concurrent_unordered_map.call_insert_or_assign 1 10).
  pose (c11 := concurrent_unordered_map.call_insert_or_assign 1 11).
  pose proof (execution_refl concurrent_unordered_map.method
                (examples.fresh_map, λ _, Idle)) as E.
  eapply (execution_step _ _ _ _ 0 (ev_call c10)) in E; [|by constructor].
  eapply (execution_step _ _ _ _ 1 (ev_call c11)) in E; [|by constructor].
  eapply (execution_step _ _ _ _ 1 (ev_lock c11)) in E; [|by constructor].
  eapply (execution_step _ _ _ _ 1 ev_access) in E; [|by econstructor].
  eapply (execution_step _ _ _ _ 1 ev_unlock) in E; [|by econstructor].
  eapply (execution_step _ _ _ _ 0 (ev_lock c10)) in E; [|by constructor].
  eapply (execution_step _ _ _ _ 1 (ev_return ret_void)) in E;
    [|by econstructor].
  eapply (execution_step _ _ _ _ 0 ev_access) in E; [|by econstructor].
  eapply (execution_step _ _ _ _ 0 ev_unlock) in E; [|by econstructor].
  eapply (execution_step _ _ _ _ 0 (ev_return ret_void)) in E;
    [|by econstructor].
  eexists. split; [exact E|].
  intros t. unfold insert, fn_insert. repeat case_decide; done.
Qed.

Lemma examples_racing_set_execution :
  ∃ P,
    execution concurrent_unordered_set.method
      (construct ∅, λ _, Idle) examples.racing_set (examples.holding_set, P)
    ∧ ∀ t, P t = Idle.
Proof.
  pose (c0 := concurrent_unordered_set.call_insert_rvalue 7).
  pose (c1 := concurrent_unordered_set.call_insert 7).
  pose proof (execution_refl concurrent_unordered_set.method
                (construct (∅ : gmap addr (gset nat)), λ _, Idle)) as E.
  eapply (execution_step _ _ _ _ 0 (ev_call c0)) in E; [|by constructor].
  eapply (execution_step _ _ _ _ 1 (ev_call c1)) in E; [|by constructor].
  eapply (execution_step _ _ _ _ 1 (ev_lock c1)) in E; [|by constructor].
  eapply (execution_step _ _ _ _ 1 ev_access) in E; [|by econstructor].
  eapply (execution_step _ _ _ _ 1 ev_unlock) in E; [|by econstructor].
  eapply (execution_step _ _ _ _ 0 (ev_lock c0)) in E; [|by constructor].
  eapply (execution_step _ _ _ _ 1 (ev_return ret_void)) in E;
    [|by econstructor].
  eapply (execution_step _ _ _ _ 0 ev_access) in E; [|by econstructor].
  eapply (execution_step _ _ _ _ 0 ev_unlock) in E; [|by econstructor].
  eapply (execution_step _ _ _ _ 0 (ev_return ret_void)) in E;
    [|by econstructor].
  eexists. split; [exact E|].
  intros t. unfold insert, fn_insert. repeat case_decide; done.
Qed.

(** ** The properties of the accumulators *)

(** C1.  Insertions into a new accumulator followed by one consume: the
    container that consume returns holds exactly the union of the inserted
    entries.  Map: its entries are, up to order, the inserted entries with
    the last writer winning per key.  Set: its values are, up to order, the
    inserted values without duplicates.  This holds when the calls are made
    one after the other, by any threads (every call returns), and when the
    insertions are made concurrently, in any interleaving, and consume is
    called after all of them have returned; the last writer is then the
    last one to have acquired the mutex. *)
Theorem consume_returns_union_of_inserted :
  ((∀ (K : Type) (EqK : EqDecision K) (CountK : Countable K) (V : Type)
      (h : gmap addr (gmap K V)) (l : list (thread_id * (K * V)))
      (t : thread_id),
      ∃ r σ' m,
        run concurrent_unordered_map.method
          (map_inserts l ++ [(t, concurrent_unordered_map.call_consume)])
          (construct h)
        = Some (replicate (length l) ret_void ++ [ret_container r], σ')
        ∧ heap σ' !! r = Some m
        ∧ map_to_list m ≡ₚ last_writer_wins l.*2)
   ∧ (∀ (K : Type) (EqK : EqDecision K) (CountK : Countable K) (V : Type)
        (h : gmap addr (gmap K V)) (l : list (thread_id * (K * V)))
        (σ : state (gmap K V)) P (t : thread_id),
        execution concurrent_unordered_map.method
          (construct h, λ _, Idle) (map_inserts l) (σ, P) →
        (∀ t', P t' = Idle) →
        ∃ r σ' m,
          exec t concurrent_unordered_map.consume σ = Some (r, σ')
          ∧ heap σ' !! r = Some m
          ∧ map_to_list m ≡ₚ last_writer_wins l.*2))
  ∧ ((∀ (T : Type) (EqT : EqDecision T) (CountT : Countable T)
        (h : gmap addr (gset T)) (l : list (thread_id * (bool * T)))
        (t : thread_id),
        ∃ r σ' s,
          run concurrent_unordered_set.method
            (set_inserts l ++ [(t, concurrent_unordered_set.call_consume)])
            (construct h)
          = Some (replicate (length l) ret_void ++ [ret_container r], σ')
          ∧ heap σ' !! r = Some s
          ∧ elements s ≡ₚ remove_dups l.*2.*2)
     ∧ (∀ (T : Type) (EqT : EqDecision T) (CountT : Countable T)
          (h : gmap addr (gset T)) (l : list (thread_id * (bool * T)))
          (σ : state (gset T)) P (t : thread_id),
          execution concurrent_unordered_set.method
            (construct h, λ _, Idle) (set_inserts l) (σ, P) →
          (∀ t', P t' = Idle) →
          ∃ r σ' s,
            exec t concurrent_unordered_set.consume σ = Some (r, σ')
            ∧ heap σ' !! r = Some s
            ∧ elements s ≡ₚ remove_dups l.*2.*2)).
Proof.
  split; split.
  - intros K EqK CountK V h l t.
    destruct (map_round l t _ _ (construct_holds h))
      as (r & σ' & Hrun & _ & _ & Hr & _).
    exists r, σ', (insert_or_assign_all l.*2 ∅).
    split_and!; [done..|apply insert_or_assign_all_entries].
  - intros K EqK CountK V h l σ P t. apply map_concurrent_round.
  - intros T EqT CountT h l t.
    destruct (set_round l t _ _ (construct_holds h))
      as (r & σ' & Hrun & _ & _ & Hr & _).
    exists r, σ', (insert_all l.*2.*2 ∅).
    split_and!; [done..|apply insert_all_elements].
  - intros T EqT CountT h l σ P t. apply set_concurrent_round.
Qed.

Lemma consume_returns_union_of_inserted_witness :
  (∃ P,
     (execution concurrent_unordered_map.method
        (construct ∅, λ _, Idle) (map_inserts [(1, (1, 11)); (0, (1, 10))])
        (examples.holding, P)
      ∧ ∀ t', P t' = Idle)
     ∧ ∃ r σ' m,
         exec 2 concurrent_unordered_map.consume examples.holding
         = Some (r, σ')
         ∧ heap σ' !! r = Some m
         ∧ map_to_list m ≡ₚ last_writer_wins [(1, 11); (1, 10)])
  ∧ (∃ P,
       (execution concurrent_unordered_set.method
          (construct ∅, λ _, Idle) (set_inserts [(1, (false, 7)); (0, (true, 7))])
          (examples.holding_set, P)
        ∧ ∀ t', P t' = Idle)
       ∧ ∃ r σ' s,
           exec 2 concurrent_unordered_set.consume examples.holding_set
           = Some (r, σ')
           ∧ heap σ' !! r = Some s
           ∧ elements s ≡ₚ remove_dups [7; 7]).
Proof.
  split.
  - destruct examples_racing_execution as (P & Hexec & Hidle).
    exists P. split; [by split|].
    exact (proj2 (proj1 consume_returns_union_of_inserted) nat _ _ nat
             ∅ [(1, (1, 11)); (0, (1, 10))] examples.holding P 2 Hexec Hidle).
  - destruct examples_racing_set_execution as (P & Hexec & Hidle).
    exists P. split; [by split|].
    exact (proj2 (proj2 consume_returns_union_of_inserted) nat _ _
             ∅ [(1, (false, 7)); (0, (true, 7))] examples.holding_set P 2
             Hexec Hidle).
Defined.

(** C2.  When consume has returned, whatever the accumulator held: empty()
    returns true and size() returns 0, for any calling thread, and leave
    the accumulator as it is; the member container is empty and the mutex
    free, as after construction; and insertions are accepted and leave the
    accumulator holding what they leave a new accumulator holding. *)
Theorem consume_leaves_accumulator_empty :
  (∀ (K : Type) (EqK : EqDecision K) (CountK : Countable K) (V : Type)
     (σ σ' : state (gmap K V)) (t : thread_id) (r : addr),
     exec t concurrent_unordered_map.consume σ = Some (r, σ') →
     (∀ t',
        exec t' concurrent_unordered_map.empty σ' = Some (true, σ')
        ∧ exec t' concurrent_unordered_map.size σ' = Some (0, σ'))
     ∧ holds σ' ∅
     ∧ ∀ h l, ∃ σ1 σ2 d,
         run concurrent_unordered_map.method (map_inserts l) σ'
         = Some (replicate (length l) ret_void, σ1)
         ∧ run concurrent_unordered_map.method (map_inserts l) (construct h)
           = Some (replicate (length l) ret_void, σ2)
         ∧ holds σ1 d ∧ holds σ2 d)
  ∧ (∀ (T : Type) (EqT : EqDecision T) (CountT : Countable T)
       (σ σ' : state (gset T)) (t : thread_id) (r : addr),
       exec t concurrent_unordered_set.consume σ = Some (r, σ') →
       (∀ t',
          exec t' concurrent_unordered_set.empty σ' = Some (true, σ')
          ∧ exec t' concurrent_unordered_set.size σ' = Some (0, σ'))
       ∧ holds σ' ∅
       ∧ ∀ h l, ∃ σ1 σ2 d,
           run concurrent_unordered_set.method (set_inserts l) σ'
           = Some (replicate (length l) ret_void, σ1)
           ∧ run concurrent_unordered_set.method (set_inserts l) (construct h)
             = Some (replicate (length l) ret_void, σ2)
           ∧ holds σ1 d ∧ holds σ2 d).
Proof.
  split.
  - intros K EqK CountK V σ σ' t r Hex.
    destruct (guarded_move_inv _ _ _ _ Hex) as (d & _ & Hh' & _).
    split_and!; [|done|].
    + intros t'. rewrite (map_exec_empty t' σ' ∅ Hh'), (map_exec_size t' σ' ∅ Hh').
      by rewrite map_size_empty.
    + intros h l.
      destruct (map_run_inserts l σ' ∅ Hh') as (σ1 & Hrun1 & Hh1 & _).
      destruct (map_run_inserts l _ ∅ (construct_holds h)) as (σ2 & Hrun2 & Hh2 & _).
      by exists σ1, σ2, (insert_or_assign_all l.*2 ∅).
  - intros T EqT CountT σ σ' t r Hex.
    destruct (guarded_move_inv _ _ _ _ Hex) as (d & _ & Hh' & _).
    split_and!; [|done|].
    + intros t'. rewrite (set_exec_empty t' σ' ∅ Hh'), (set_exec_size t' σ' ∅ Hh').
      by rewrite size_empty.
    + intros h l.
      destruct (set_run_inserts l σ' ∅ Hh') as (σ1 & Hrun1 & Hh1 & _).
      destruct (set_run_inserts l _ ∅ (construct_holds h)) as (σ2 & Hrun2 & Hh2 & _).
      by exists σ1, σ2, (insert_all l.*2.*2 ∅).
Qed.

Lemma consume_leaves_accumulator_empty_witness :
  (exec 0 concurrent_unordered_map.consume examples.holding
   = Some (2%positive, examples.consumed)
   ∧ exec 1 concurrent_unordered_map.empty examples.consumed
     = Some (true, examples.consumed)
   ∧ exec 1 concurrent_unordered_map.size examples.consumed
     = Some (0, examples.consumed))
  ∧ (exec 0 concurrent_unordered_set.consume examples.holding_set
     = Some (2%positive, examples.consumed_set)
     ∧ exec 1 concurrent_unordered_set.empty examples.consumed_set
       = Some (true, examples.consumed_set)
     ∧ exec 1 concurrent_unordered_set.size examples.consumed_set
       = Some (0, examples.consumed_set)).
Proof.
  split.
  - assert (exec 0 concurrent_unordered_map.consume examples.holding
            = Some (2%positive, examples.consumed)) as Hex
      by (vm_compute; reflexivity).
    split; [exact Hex|].
    apply (proj1 (proj1 consume_leaves_accumulator_empty nat _ _ nat
                   examples.holding examples.consumed 0 2%positive Hex) 1).
  - assert (exec 0 concurrent_unordered_set.consume examples.holding_set
            = Some (2%positive, examples.consumed_set)) as Hex
      by (vm_compute; reflexivity).
    split; [exact Hex|].
    apply (proj1 (proj2 consume_leaves_accumulator_empty nat _ _
                   examples.holding_set examples.consumed_set 0 2%positive Hex) 1).
Defined.

(** C3.  Two rounds on a new accumulator, insertions then consume, twice:
    every call returns, the two returned containers are different objects,
    and the second one holds the entries inserted after the first consume
    and nothing of the first round. *)
Theorem second_round_has_no_carryover :
  (∀ (K : Type) (EqK : EqDecision K) (CountK : Countable K) (V : Type)
     (h : gmap addr (gmap K V)) (l1 l2 : list (thread_id * (K * V)))
     (t1 t2 : thread_id),
     ∃ r1 r2 σ' m2,
       run concurrent_unordered_map.method
         ((map_inserts l1 ++ [(t1, concurrent_unordered_map.call_consume)])
          ++ map_inserts l2 ++ [(t2, concurrent_unordered_map.call_consume)])
         (construct h)
       = Some ((replicate (length l1) ret_void ++ [ret_container r1])
               ++ replicate (length l2) ret_void ++ [ret_container r2], σ')
       ∧ r1 ≠ r2
       ∧ heap σ' !! r2 = Some m2
       ∧ map_to_list m2 ≡ₚ last_writer_wins l2.*2)
  ∧ (∀ (T : Type) (EqT : EqDecision T) (CountT : Countable T)
       (h : gmap addr (gset T)) (l1 l2 : list (thread_id * (bool * T)))
       (t1 t2 : thread_id),
       ∃ r1 r2 σ' s2,
         run concurrent_unordered_set.method
           ((set_inserts l1 ++ [(t1, concurrent_unordered_set.call_consume)])
            ++ set_inserts l2 ++ [(t2, concurrent_unordered_set.call_consume)])
           (construct h)
         = Some ((replicate (length l1) ret_void ++ [ret_container r1])
                 ++ replicate (length l2) ret_void ++ [ret_container r2], σ')
         ∧ r1 ≠ r2
         ∧ heap σ' !! r2 = Some s2
         ∧ elements s2 ≡ₚ remove_dups l2.*2.*2).
Proof.
  split.
  - intros K EqK CountK V h l1 l2 t1 t2.
    destruct (map_round l1 t1 _ _ (construct_holds h))
      as (r1 & σ1 & Hrun1 & Hh1 & _ & Hr1 & _).
    destruct (map_round l2 t2 _ _ Hh1) as (r2 & σ2 & Hrun2 & _ & Hnew & Hr2 & _).
    exists r1, r2, σ2, (insert_or_assign_all l2.*2 ∅).
    rewrite run_app, Hrun1, Hrun2.
    split_and!; [done|congruence|done|apply insert_or_assign_all_entries].
  - intros T EqT CountT h l1 l2 t1 t2.
    destruct (set_round l1 t1 _ _ (construct_holds h))
      as (r1 & σ1 & Hrun1 & Hh1 & _ & Hr1 & _).
    destruct (set_round l2 t2 _ _ Hh1) as (r2 & σ2 & Hrun2 & _ & Hnew & Hr2 & _).
    exists r1, r2, σ2, (insert_all l2.*2.*2 ∅).
    rewrite run_app, Hrun1, Hrun2.
    split_and!; [done|congruence|done|apply insert_all_elements].
Qed.

(** C4.  When consume has returned a container: it is not the member
    container of the accumulator, it holds what the accumulator held, and
    its contents are not changed by later calls on the accumulator
    (insert_or_assign / insert, empty, size, consume), neither by calls made
    one after the other by any threads, nor at any point of an interleaved
    execution of such calls. *)
Theorem returned_container_is_not_shared :
  (∀ (K : Type) (EqK : EqDecision K) (CountK : Countable K) (V : Type)
     (σ σ1 : state (gmap K V)) (t : thread_id) (r : addr),
     exec t concurrent_unordered_map.consume σ = Some (r, σ1) →
     r ≠ m_data σ1
     ∧ heap σ1 !! r = contents σ
     ∧ (∀ calls rs σ2,
          run concurrent_unordered_map.method calls σ1 = Some (rs, σ2) →
          heap σ2 !! r = heap σ1 !! r)
     ∧ (∀ calls c2,
          execution concurrent_unordered_map.method (σ1, λ _, Idle) calls c2 →
          heap c2.1 !! r = heap σ1 !! r))
  ∧ (∀ (T : Type) (EqT : EqDecision T) (CountT : Countable T)
       (σ σ1 : state (gset T)) (t : thread_id) (r : addr),
       exec t concurrent_unordered_set.consume σ = Some (r, σ1) →
       r ≠ m_data σ1
       ∧ heap σ1 !! r = contents σ
       ∧ (∀ calls rs σ2,
            run concurrent_unordered_set.method calls σ1 = Some (rs, σ2) →
            heap σ2 !! r = heap σ1 !! r)
       ∧ (∀ calls c2,
            execution concurrent_unordered_set.method (σ1, λ _, Idle) calls c2 →
            heap c2.1 !! r = heap σ1 !! r)).
Proof.
  split.
  - intros K EqK CountK V σ σ1 t r Hex.
    destruct (guarded_move_inv _ _ _ _ Hex)
      as (d & [_ Hd] & Hh1 & Hm & Hne & _ & Hr & _).
    split_and!; [congruence|congruence| |].
    + intros calls rs σ2 Hrun.
      destruct (run_frame _ (λ t c σ d, map_method_returns t c σ d)
                  _ _ _ _ _ Hh1 Hrun) as [_ Hf].
      apply Hf; [congruence|by rewrite Hr].
    + intros calls c2 Hexec. rewrite Hr.
      eapply (execution_preserves_container _ map_method_local);
        [|done..]. congruence.
  - intros T EqT CountT σ σ1 t r Hex.
    destruct (guarded_move_inv _ _ _ _ Hex)
      as (d & [_ Hd] & Hh1 & Hm & Hne & _ & Hr & _).
    split_and!; [congruence|congruence| |].
    + intros calls rs σ2 Hrun.
      destruct (run_frame _ (λ t c σ d, set_method_returns t c σ d)
                  _ _ _ _ _ Hh1 Hrun) as [_ Hf].
      apply Hf; [congruence|by rewrite Hr].
    + intros calls c2 Hexec. rewrite Hr.
      eapply (execution_preserves_container _ set_method_local);
        [|done..]. congruence.
Qed.

Lemma returned_container_is_not_shared_witness :
  (exec 0 concurrent_unordered_map.consume examples.holding
   = Some (2%positive, examples.consumed)
   ∧ run concurrent_unordered_map.method examples.later_calls examples.consumed
     = Some (examples.later_results, examples.later)
   ∧ heap examples.later !! 2%positive = heap examples.consumed !! 2%positive
   ∧ ∃ P,
       execution concurrent_unordered_map.method
         (examples.consumed, λ _, Idle) examples.later_calls (examples.later, P)
       ∧ heap (examples.later, P).1 !! 2%positive
         = heap examples.consumed !! 2%positive)
  ∧ (exec 0 concurrent_unordered_set.consume examples.holding_set
     = Some (2%positive, examples.consumed_set)
     ∧ run concurrent_unordered_set.method examples.later_calls_set
         examples.consumed_set
       = Some (examples.later_results, examples.later_set)
     ∧ heap examples.later_set !! 2%positive
       = heap examples.consumed_set !! 2%positive
     ∧ ∃ P,
         execution concurrent_unordered_set.method
           (examples.consumed_set, λ _, Idle) examples.later_calls_set
           (examples.later_set, P)
         ∧ heap (examples.later_set, P).1 !! 2%positive
           = heap examples.consumed_set !! 2%positive).
Proof.
  split.
  - assert (exec 0 concurrent_unordered_map.consume examples.holding
            = Some (2%positive, examples.consumed)) as Hex
      by (vm_compute; reflexivity).
    assert (run concurrent_unordered_map.method examples.later_calls
              examples.consumed
            = Some (examples.later_results, examples.later)) as Hrun
      by (vm_compute; reflexivity).
    destruct (proj1 returned_container_is_not_shared nat _ _ nat
                examples.holding examples.consumed 0 2%positive Hex)
      as (_ & _ & Hseq & Hpar).
    split_and!; [exact Hex|exact Hrun|exact (Hseq _ _ _ Hrun)|].
    destruct (run_execution concurrent_unordered_map.method map_method_atomic
                _ _ (λ _, Idle) _ _ Hrun (λ _, eq_refl)) as (P & Hexec & _).
    exists P. split; [exact Hexec|exact (Hpar _ _ Hexec)].
  - assert (exec 0 concurrent_unordered_set.consume examples.holding_set
            = Some (2%positive, examples.consumed_set)) as Hex
      by (vm_compute; reflexivity).
    assert (run concurrent_unordered_set.method examples.later_calls_set
              examples.consumed_set
            = Some (examples.later_results, examples.later_set)) as Hrun
      by (vm_compute; reflexivity).
    destruct (proj2 returned_container_is_not_shared nat _ _
                examples.holding_set examples.consumed_set 0 2%positive Hex)
      as (_ & _ & Hseq & Hpar).
    split_and!; [exact Hex|exact Hrun|exact (Hseq _ _ _ Hrun)|].
    destruct (run_execution concurrent_unordered_set.method set_method_atomic
                _ _ (λ _, Idle) _ _ Hrun (λ _, eq_refl)) as (P & Hexec & _).
    exists P. split; [exact Hexec|exact (Hpar _ _ Hexec)].
Defined.

(** C5.  consume on an accumulator into which nothing was inserted
    returns, and the container it returns is empty. *)
Theorem consume_of_new_accumulator_is_empty :
  (∀ (K : Type) (EqK : EqDecision K) (CountK : Countable K) (V : Type)
     (h : gmap addr (gmap K V)) (t : thread_id),
     ∃ r σ',
       exec t concurrent_unordered_map.consume (construct h) = Some (r, σ')
       ∧ heap σ' !! r = Some ∅)
  ∧ (∀ (T : Type) (EqT : EqDecision T) (CountT : Countable T)
       (h : gmap addr (gset T)) (t : thread_id),
       ∃ r σ',
         exec t concurrent_unordered_set.consume (construct h) = Some (r, σ')
         ∧ heap σ' !! r = Some ∅).
Proof.
  split.
  - intros K EqK CountK V h t.
    destruct (guarded_move_spec t _ _ (construct_holds h))
      as (r & σ' & Hex & _ & _ & _ & _ & Hr & _).
    by exists r, σ'.
  - intros T EqT CountT h t.
    destruct (guarded_move_spec t _ _ (construct_holds h))
      as (r & σ' & Hex & _ & _ & _ & _ & Hr & _).
    by exists r, σ'.
Qed.

(** C6.  insert_or_assign(k, v), called while the map accumulator holds
    [d], returns and leaves it holding [d] with [k] mapped to [v]: the key
    is added when it was absent, its value is overwritten when it was
    present, every other key is as it was.  And insert_or_assign(k, v1)
    followed by insert_or_assign(k, v2) followed by consume returns a map
    that maps [k] to [v2]. *)
Theorem insert_or_assign_last_value_wins :
  ∀ (K : Type) (EqK : EqDecision K) (CountK : Countable K) (V : Type)
    (σ : state (gmap K V)) (d : gmap K V) (k : K),
    holds σ d →
    (∀ v t,
       ∃ σ' d',
         exec t (concurrent_unordered_map.insert_or_assign k v) σ = Some (tt, σ')
         ∧ holds σ' d'
         ∧ d' !! k = Some v
         ∧ (∀ k', k' ≠ k → d' !! k' = d !! k')
         ∧ (d !! k = None → dom d' = {[k]} ∪ dom d)
         ∧ (is_Some (d !! k) → dom d' = dom d))
    ∧ (∀ v1 v2 t1 t2 t3,
         ∃ r σ' m,
           run concurrent_unordered_map.method
             [(t1, concurrent_unordered_map.call_insert_or_assign k v1);
              (t2, concurrent_unordered_map.call_insert_or_assign k v2);
              (t3, concurrent_unordered_map.call_consume)] σ
           = Some ([ret_void; ret_void; ret_container r], σ')
           ∧ heap σ' !! r = Some m
           ∧ m !! k = Some v2).
Proof.
  intros K EqK CountK V σ d k Hh. split.
  - intros v t. exists (set_contents (<[k := v]> d) σ), (<[k := v]> d).
    split_and!.
    + by apply map_exec_insert_or_assign.
    + apply holds_set_contents.
    + apply lookup_insert_eq.
    + intros k' Hne. by apply lookup_insert_ne.
    + intros _. apply dom_insert_L.
    + intros Hk. rewrite dom_insert_L. apply elem_of_dom in Hk. set_solver.
  - intros v1 v2 t1 t2 t3.
    destruct (map_round [(t1, (k, v1)); (t2, (k, v2))] t3 σ d Hh)
      as (r & σ' & Hrun & _ & _ & Hr & _).
    exists r, σ', (<[k := v2]> (<[k := v1]> d)).
    split_and!; [exact Hrun|exact Hr|apply lookup_insert_eq].
Qed.

Lemma insert_or_assign_last_value_wins_witness :
  holds examples.holding {[1 := 10]}
  ∧ ∃ r σ' m,
      run concurrent_unordered_map.method
        [(0, concurrent_unordered_map.call_insert_or_assign 1 11);
         (1, concurrent_unordered_map.call_insert_or_assign 1 12);
         (0, concurrent_unordered_map.call_consume)] examples.holding
      = Some ([ret_void; ret_void; ret_container r], σ')
      ∧ heap σ' !! r = Some m
      ∧ m !! 1 = Some 12.
Proof.
  assert (holds examples.holding {[1 := 10]}) as Hh
    by (split; vm_compute; reflexivity).
  split; [exact Hh|].
  apply (proj2 (insert_or_assign_last_value_wins nat _ _ nat
                  examples.holding {[1 := 10]} 1 Hh) 11 12 0 1 0).
Defined.

(** C7.  Inserting into the set accumulator a value that it holds changes
    nothing at all; inserting the same value a second time leaves the
    accumulator as the first insertion left it; and after two insertions of
    a value, consume returns a set in which the value occurs exactly
    once.  This holds for both overloads of insert. *)
Theorem set_insert_is_idempotent :
  ∀ (T : Type) (EqT : EqDecision T) (CountT : Countable T)
    (σ : state (gset T)) (d : gset T) (x : T),
    holds σ d →
    (x ∈ d →
     ∀ t,
       exec t (concurrent_unordered_set.insert x) σ = Some (tt, σ)
       ∧ exec t (concurrent_unordered_set.insert_rvalue x) σ = Some (tt, σ))
    ∧ (∀ t1 t2 b1 b2,
         ∃ σ1,
           run concurrent_unordered_set.method (set_inserts [(t1, (b1, x))]) σ
           = Some ([ret_void], σ1)
           ∧ run concurrent_unordered_set.method (set_inserts [(t2, (b2, x))]) σ1
             = Some ([ret_void], σ1))
    ∧ (∀ t1 t2 t3 b1 b2,
         ∃ r σ' s,
           run concurrent_unordered_set.method
             (set_inserts [(t1, (b1, x)); (t2, (b2, x))]
              ++ [(t3, concurrent_unordered_set.call_consume)]) σ
           = Some ([ret_void; ret_void; ret_container r], σ')
           ∧ heap σ' !! r = Some s
           ∧ occurrences x (elements s) = 1).
Proof.
  intros T EqT CountT σ d x Hh. split_and!.
  - intros Hx t.
    rewrite (set_exec_insert t x σ d Hh), (set_exec_insert_rvalue t x σ d Hh).
    by rewrite (insert_present x d Hx), (set_contents_id σ d Hh).
  - intros t1 t2 b1 b2.
    destruct (set_run_inserts [(t1, (b1, x))] σ d Hh) as (σ1 & Hrun1 & Hh1 & _).
    exists σ1. split; [exact Hrun1|].
    destruct (set_run_inserts [(t2, (b2, x))] σ1 _ Hh1) as (σ2 & Hrun2 & Hh2 & _).
    rewrite Hrun2. do 2 f_equal.
    assert (x ∈ insert_all [(t1, (b1, x))].*2.*2 d) as Hx
      by (rewrite insert_all_union; set_solver).
    destruct b2; cbn [set_inserts fmap list_fmap fst snd] in Hrun2;
      rewrite run_singleton in Hrun2;
      cbn [concurrent_unordered_set.method] in Hrun2;
      rewrite exec_bind in Hrun2.
    + rewrite (set_exec_insert_rvalue t2 x σ1 _ Hh1) in Hrun2.
      rewrite (insert_present x _ Hx), (set_contents_id σ1 _ Hh1) in Hrun2.
      cbn [exec] in Hrun2. congruence.
    + rewrite (set_exec_insert t2 x σ1 _ Hh1) in Hrun2.
      rewrite (insert_present x _ Hx), (set_contents_id σ1 _ Hh1) in Hrun2.
      cbn [exec] in Hrun2. congruence.
  - intros t1 t2 t3 b1 b2.
    destruct (set_round [(t1, (b1, x)); (t2, (b2, x))] t3 σ d Hh)
      as (r & σ' & Hrun & _ & _ & Hr & _).
    exists r, σ', (insert_all [x; x] d).
    split_and!; [exact Hrun|exact Hr|].
    apply occurrences_NoDup; [apply NoDup_elements|].
    rewrite elem_of_elements, insert_all_union. set_solver.
Qed.

Lemma set_insert_is_idempotent_witness :
  holds examples.holding_set {[7]}
  ∧ 7 ∈ ({[7]} : gset nat)
  ∧ exec 0 (concurrent_unordered_set.insert 7) examples.holding_set
    = Some (tt, examples.holding_set)
  ∧ exec 0 (concurrent_unordered_set.insert_rvalue 7) examples.holding_set
    = Some (tt, examples.holding_set).
Proof.
  assert (holds examples.holding_set {[7]}) as Hh
    by (split; vm_compute; reflexivity).
  assert (7 ∈ ({[7]} : gset nat)) as Hx by (by apply elem_of_singleton).
  split_and!; [exact Hh|exact Hx|..];
    apply (proj1 (set_insert_is_idempotent nat _ _
                    examples.holding_set {[7]} 7 Hh) Hx 0).
Defined.

(** C8.  On one accumulator, in every configuration that threads calling
    insert_or_assign / insert, empty, size and consume in any interleaving
    can reach: no two threads are inside a critical section, a thread inside
    a critical section owns the mutex, and every operation on the storage
    [m_data] is made by the thread that owns the mutex while every other
    thread is outside its critical section.  And the calls are serialized:
    when all threads have returned, the accumulator and the containers are
    as after the same calls made one after the other, in the order in which
    they acquired the mutex. *)
Theorem guard_serializes_operations :
  ((∀ (K : Type) (EqK : EqDecision K) (CountK : Countable K) (V : Type)
      (c : config (gmap K V) (concurrent_unordered_map.call K V) result),
      reachable concurrent_unordered_map.method c →
      (∀ t1 t2,
         in_critical_section (c.2 t1) → in_critical_section (c.2 t2) →
         t1 = t2)
      ∧ (∀ t, in_critical_section (c.2 t) → m_mutex c.1 = Some t)
      ∧ (∀ t c',
           step concurrent_unordered_map.method t ev_access c c' →
           m_mutex c.1 = Some t
           ∧ ∀ t', t' ≠ t → ¬ in_critical_section (c.2 t')))
   ∧ (∀ (K : Type) (EqK : EqDecision K) (CountK : Countable K) (V : Type)
        (σ0 σ : state (gmap K V)) (d0 : gmap K V) calls P,
        holds σ0 d0 →
        execution concurrent_unordered_map.method
          (σ0, λ _, Idle) calls (σ, P) →
        (∀ t, P t = Idle) →
        ∃ rs, run concurrent_unordered_map.method calls σ0 = Some (rs, σ)))
  ∧ ((∀ (T : Type) (EqT : EqDecision T) (CountT : Countable T)
        (c : config (gset T) (concurrent_unordered_set.call T) result),
        reachable concurrent_unordered_set.method c →
        (∀ t1 t2,
           in_critical_section (c.2 t1) → in_critical_section (c.2 t2) →
           t1 = t2)
        ∧ (∀ t, in_critical_section (c.2 t) → m_mutex c.1 = Some t)
        ∧ (∀ t c',
             step concurrent_unordered_set.method t ev_access c c' →
             m_mutex c.1 = Some t
             ∧ ∀ t', t' ≠ t → ¬ in_critical_section (c.2 t')))
     ∧ (∀ (T : Type) (EqT : EqDecision T) (CountT : Countable T)
          (σ0 σ : state (gset T)) (d0 : gset T) calls P,
          holds σ0 d0 →
          execution concurrent_unordered_set.method
            (σ0, λ _, Idle) calls (σ, P) →
          (∀ t, P t = Idle) →
          ∃ rs, run concurrent_unordered_set.method calls σ0 = Some (rs, σ))).
Proof.
  split; split.
  - intros K EqK CountK V c Hreach. split_and!.
    + intros t1 t2.
      by apply (critical_sections_exclusive _ map_method_guarded).
    + intros t. by apply (critical_section_owner _ map_method_guarded).
    + intros t c'. by apply (access_owner _ map_method_guarded).
  - intros K EqK CountK V σ0 σ d0 calls P.
    apply (interleaving_linearizable _ map_method_atomic
             (λ t c σ d, map_method_returns t c σ d)).
  - intros T EqT CountT c Hreach. split_and!.
    + intros t1 t2.
      by apply (critical_sections_exclusive _ set_method_guarded).
    + intros t. by apply (critical_section_owner _ set_method_guarded).
    + intros t c'. by apply (access_owner _ set_method_guarded).
  - intros T EqT CountT σ0 σ d0 calls P.
    apply (interleaving_linearizable _ set_method_atomic
             (λ t c σ d, set_method_returns t c σ d)).
Qed.

Lemma examples_locked_reachable :
  reachable concurrent_unordered_map.method examples.locked.
Proof.
  eapply reachable_step; [eapply reachable_step|].
  - apply reachable_init, construct_quiescent.
  - by apply (step_call _ 0
                (concurrent_unordered_map.call_insert_or_assign 1 10)).
  - by apply (step_lock _ 0
                (concurrent_unordered_map.call_insert_or_assign 1 10)).
Qed.

Lemma examples_access_step :
  step concurrent_unordered_map.method 0 ev_access
    examples.locked examples.inserted.
Proof.
  unfold examples.inserted.
  by apply (step_access _ 0
              (concurrent_unordered_map.call_insert_or_assign 1 10)
              (concurrent_unordered_map.unordered_map_insert_or_assign 1 10)
              (λ _, Unlock (Ret ret_void)) tt).
Qed.

Lemma guard_serializes_operations_witness :
  (reachable concurrent_unordered_map.method examples.locked
   ∧ in_critical_section (examples.locked.2 0)
   ∧ step concurrent_unordered_map.method 0 ev_access
       examples.locked examples.inserted
   ∧ m_mutex examples.locked.1 = Some 0
   ∧ ∀ t', t' ≠ 0 → ¬ in_critical_section (examples.locked.2 t'))
  ∧ (holds examples.fresh_map ∅
     ∧ ∃ P,
         (execution concurrent_unordered_map.method
            (examples.fresh_map, λ _, Idle) examples.racing
            (examples.holding, P)
          ∧ ∀ t, P t = Idle)
         ∧ ∃ rs,
             run concurrent_unordered_map.method examples.racing
               examples.fresh_map
             = Some (rs, examples.holding)).
Proof.
  split.
  - pose proof examples_locked_reachable as Hreach.
    pose proof examples_access_step as Hstep.
    destruct (proj1 (proj1 guard_serializes_operations) nat _ _ nat
                examples.locked Hreach) as (_ & Howner & Haccess).
    split_and!; [exact Hreach|exact I|exact Hstep|..].
    + exact (Howner 0 I).
    + exact (proj2 (Haccess 0 examples.inserted Hstep)).
  - assert (holds examples.fresh_map ∅) as Hh
      by (split; vm_compute; reflexivity).
    split; [exact Hh|].
    destruct examples_racing_execution as (P & Hexec & Hidle).
    exists P. split; [by split|].
    exact (proj2 (proj1 guard_serializes_operations) nat _ _ nat
             examples.fresh_map examples.holding ∅ examples.racing P
             Hh Hexec Hidle).
Defined.

(** C9.  empty() and size() are observers.  In every state of the
    accumulator in which no call is in progress both return and leave the
    state exactly as it was, and empty() returns true exactly when size()
    returns 0; and whenever one of them returns, it was called in such a
    state and has left it as it was. *)
Theorem empty_and_size_are_observers :
  (∀ (K : Type) (EqK : EqDecision K) (CountK : Countable K) (V : Type)
     (σ : state (gmap K V)) (t : thread_id),
     (quiescent σ →
      ∃ n,
        exec t concurrent_unordered_map.size σ = Some (n, σ)
        ∧ exec t concurrent_unordered_map.empty σ = Some (bool_decide (n = 0), σ))
     ∧ (∀ b σ',
          exec t concurrent_unordered_map.empty σ = Some (b, σ') →
          σ' = σ ∧ quiescent σ)
     ∧ (∀ n σ',
          exec t concurrent_unordered_map.size σ = Some (n, σ') →
          σ' = σ ∧ quiescent σ))
  ∧ (∀ (T : Type) (EqT : EqDecision T) (CountT : Countable T)
       (σ : state (gset T)) (t : thread_id),
       (quiescent σ →
        ∃ n,
          exec t concurrent_unordered_set.size σ = Some (n, σ)
          ∧ exec t concurrent_unordered_set.empty σ = Some (bool_decide (n = 0), σ))
       ∧ (∀ b σ',
            exec t concurrent_unordered_set.empty σ = Some (b, σ') →
            σ' = σ ∧ quiescent σ)
       ∧ (∀ n σ',
            exec t concurrent_unordered_set.size σ = Some (n, σ') →
            σ' = σ ∧ quiescent σ)).
Proof.
  split.
  - intros K EqK CountK V σ t. apply guarded_observers.
  - intros T EqT CountT σ t. apply guarded_observers.
Qed.

Lemma empty_and_size_are_observers_witness :
  (quiescent examples.holding
   ∧ (∃ n,
        exec 3 concurrent_unordered_map.size examples.holding
        = Some (n, examples.holding)
        ∧ exec 3 concurrent_unordered_map.empty examples.holding
          = Some (bool_decide (n = 0), examples.holding))
   ∧ exec 3 concurrent_unordered_map.empty examples.holding
     = Some (false, examples.holding)
   ∧ exec 3 concurrent_unordered_map.size examples.holding
     = Some (1, examples.holding)
   ∧ examples.holding = examples.holding)
  ∧ (quiescent examples.holding_set
     ∧ (∃ n,
          exec 3 concurrent_unordered_set.size examples.holding_set
          = Some (n, examples.holding_set)
          ∧ exec 3 concurrent_unordered_set.empty examples.holding_set
            = Some (bool_decide (n = 0), examples.holding_set))
     ∧ exec 3 concurrent_unordered_set.empty examples.holding_set
       = Some (false, examples.holding_set)
     ∧ exec 3 concurrent_unordered_set.size examples.holding_set
       = Some (1, examples.holding_set)
     ∧ examples.holding_set = examples.holding_set).
Proof.
  split.
  - assert (exec 3 concurrent_unordered_map.empty examples.holding
            = Some (false, examples.holding)) as Hempty
      by (vm_compute; reflexivity).
    assert (exec 3 concurrent_unordered_map.size examples.holding
            = Some (1, examples.holding)) as Hsize
      by (vm_compute; reflexivity).
    destruct (proj1 empty_and_size_are_observers nat _ _ nat
                examples.holding 3) as (Hobs & Hret_empty & Hret_size).
    destruct (Hret_empty _ _ Hempty) as [_ Hq].
    destruct (Hret_size _ _ Hsize) as [Hsame _].
    split_and!;
      [exact Hq|exact (Hobs Hq)|exact Hempty|exact Hsize|exact Hsame].
  - assert (exec 3 concurrent_unordered_set.empty examples.holding_set
            = Some (false, examples.holding_set)) as Hempty
      by (vm_compute; reflexivity).
    assert (exec 3 concurrent_unordered_set.size examples.holding_set
            = Some (1, examples.holding_set)) as Hsize
      by (vm_compute; reflexivity).
    destruct (proj2 empty_and_size_are_observers nat _ _
                examples.holding_set 3) as (Hobs & Hret_empty & Hret_size).
    destruct (Hret_empty _ _ Hempty) as [_ Hq].
    destruct (Hret_size _ _ Hsize) as [Hsame _].
    split_and!;
      [exact Hq|exact (Hobs Hq)|exact Hempty|exact Hsize|exact Hsame].
Defined.

(** C10.  While the accumulator holds [d], size() returns the number of
    entries of [d]; one insert_or_assign (map) or insert (set, either
    overload) returns, and size() then returns the same number when the
    key or value was present and one more when it was absent; and after any
    sequence of calls other than consume, size() returns at least what it
    returned before. *)
Theorem size_grows_by_one_per_new_entry :
  (∀ (K : Type) (EqK : EqDecision K) (CountK : Countable K) (V : Type)
     (σ : state (gmap K V)) (d : gmap K V) (t : thread_id),
     holds σ d →
     exec t concurrent_unordered_map.size σ = Some (size d, σ)
     ∧ (∀ k v t',
          ∃ σ',
            exec t' (concurrent_unordered_map.insert_or_assign k v) σ
            = Some (tt, σ')
            ∧ exec t concurrent_unordered_map.size σ'
              = Some (if decide (k ∈ dom d) then size d else S (size d), σ'))
     ∧ (∀ calls,
          Forall (λ tc, tc.2 ≠ concurrent_unordered_map.call_consume) calls →
          ∃ rs σ' n',
            run concurrent_unordered_map.method calls σ = Some (rs, σ')
            ∧ exec t concurrent_unordered_map.size σ' = Some (n', σ')
            ∧ size d ≤ n'))
  ∧ (∀ (T : Type) (EqT : EqDecision T) (CountT : Countable T)
       (σ : state (gset T)) (d : gset T) (t : thread_id),
       holds σ d →
       exec t concurrent_unordered_set.size σ = Some (size d, σ)
       ∧ (∀ x t',
            ∃ σ',
              exec t' (concurrent_unordered_set.insert x) σ = Some (tt, σ')
              ∧ exec t' (concurrent_unordered_set.insert_rvalue x) σ
                = Some (tt, σ')
              ∧ exec t concurrent_unordered_set.size σ'
                = Some (if decide (x ∈ d) then size d else S (size d), σ'))
       ∧ (∀ calls,
            Forall (λ tc, tc.2 ≠ concurrent_unordered_set.call_consume) calls →
            ∃ rs σ' n',
              run concurrent_unordered_set.method calls σ = Some (rs, σ')
              ∧ exec t concurrent_unordered_set.size σ' = Some (n', σ')
              ∧ size d ≤ n')).
Proof.
  split.
  - intros K EqK CountK V σ d t Hh. split_and!.
    + by apply map_exec_size.
    + intros k v t'. eexists. split; [by apply map_exec_insert_or_assign|].
      rewrite (map_exec_size t _ _ (holds_set_contents σ (<[k := v]> d))).
      by rewrite map_insert_size.
    + intros calls Hcalls.
      edestruct (run_preserves concurrent_unordered_map.method
                   (λ c, c ≠ concurrent_unordered_map.call_consume)
                   (λ d d' : gmap K V, size d ≤ size d'))
        as (rs & σ' & d' & Hrun & Hh' & Hle);
        [intros; lia|intros ???; lia|apply map_method_grows
        |exact Hcalls|exact Hh|].
      exists rs, σ', (size d'). split_and!; [done| |done].
      by apply map_exec_size.
  - intros T EqT CountT σ d t Hh. split_and!.
    + by apply set_exec_size.
    + intros x t'. eexists.
      split; [by apply set_exec_insert|].
      split; [by apply set_exec_insert_rvalue|].
      rewrite (set_exec_size t _ _ (holds_set_contents σ _)).
      by rewrite set_insert_size.
    + intros calls Hcalls.
      edestruct (run_preserves concurrent_unordered_set.method
                   (λ c, c ≠ concurrent_unordered_set.call_consume)
                   (λ d d' : gset T, size d ≤ size d'))
        as (rs & σ' & d' & Hrun & Hh' & Hle);
        [intros; lia|intros ???; lia|apply set_method_grows
        |exact Hcalls|exact Hh|].
      exists rs, σ', (size d'). split_and!; [done| |done].
      by apply set_exec_size.
Qed.

Lemma size_grows_by_one_per_new_entry_witness :
  (holds examples.holding {[1 := 10]}
   ∧ Forall (λ tc, tc.2 ≠ concurrent_unordered_map.call_consume)
       examples.growing_calls
   ∧ exec 0 concurrent_unordered_map.size examples.holding
     = Some (1, examples.holding)
   ∧ ∃ rs σ' n',
       run concurrent_unordered_map.method examples.growing_calls
         examples.holding = Some (rs, σ')
       ∧ exec 0 concurrent_unordered_map.size σ' = Some (n', σ')
       ∧ 1 ≤ n')
  ∧ (holds examples.holding_set {[7]}
     ∧ Forall (λ tc, tc.2 ≠ concurrent_unordered_set.call_consume)
         examples.growing_calls_set
     ∧ exec 0 concurrent_unordered_set.size examples.holding_set
       = Some (1, examples.holding_set)
     ∧ ∃ rs σ' n',
         run concurrent_unordered_set.method examples.growing_calls_set
           examples.holding_set = Some (rs, σ')
         ∧ exec 0 concurrent_unordered_set.size σ' = Some (n', σ')
         ∧ 1 ≤ n').
Proof.
  split.
  - assert (holds examples.holding {[1 := 10]}) as Hh
      by (split; vm_compute; reflexivity).
    assert (Forall (λ tc, tc.2 ≠ concurrent_unordered_map.call_consume)
              examples.growing_calls) as Hcalls
      by (repeat constructor; discriminate).
    destruct (proj1 size_grows_by_one_per_new_entry nat _ _ nat
                examples.holding {[1 := 10]} 0 Hh) as (Hsize & _ & Hgrow).
    split_and!; [exact Hh|exact Hcalls|exact Hsize|exact (Hgrow _ Hcalls)].
  - assert (holds examples.holding_set {[7]}) as Hh
      by (split; vm_compute; reflexivity).
    assert (Forall (λ tc, tc.2 ≠ concurrent_unordered_set.call_consume)
              examples.growing_calls_set) as Hcalls
      by (repeat constructor; discriminate).
    destruct (proj2 size_grows_by_one_per_new_entry nat _ _
                examples.holding_set {[7]} 0 Hh) as (Hsize & _ & Hgrow).
    split_and!; [exact Hh|exact Hcalls|exact Hsize|exact (Hgrow _ Hcalls)].
Defined.

(** ** Interleaved execution: progress and results *)

Section progress.
Context {Data Call Result : Type} (method : Call → prog Data Result).
Hypothesis method_atomic : ∀ c, atomic (method c).
Hypothesis method_returns : ∀ t c σ d,
  holds σ d →
  ∃ res σ' d', exec t (method c) σ = Some (res, σ') ∧ holds σ' d' ∧ frame σ σ'.
Implicit Types (σ : state Data) (P : thread_id → thread Data Call Result).
Implicit Types (c : config Data Call Result).

Lemma execution_reachable σ0 calls c :
  quiescent σ0 → execution method (σ0, λ _, Idle) calls c →
  reachable method c.
Proof.
  intros Hq Hexec. remember (σ0, λ _ : thread_id, Idle) as c0 eqn:Hc0.
  induction Hexec as [c|c1 calls c2 t e c3 _ IH Hstep]; subst.
  - by constructor.
  - eapply reachable_step; [by apply IH|done].
Qed.

Lemma linearized_execution σ0 calls c calls' c' :
  linearized method σ0 calls c → execution method c calls' c' →
  linearized method σ0 (calls ++ calls') c'.
Proof.
  intros Hlin Hexec. induction Hexec as [c|c1 calls1 c2 t e c3 _ IH Hstep].
  - by rewrite app_nil_r.
  - rewrite app_assoc.
    eapply (linearized_step method method_atomic method_returns); [|done].
    by apply IH.
Qed.

Lemma critical_in_critical_section (cl : Call) (p : prog Data Result) :
  critical p → in_critical_section (Running cl p).
Proof. by destruct p. Qed.

(** The owner of the mutex is inside a critical section. *)
Lemma owner_in_critical_section σ0 d0 calls c t :
  holds σ0 d0 → execution method (σ0, λ _, Idle) calls c →
  m_mutex c.1 = Some t → in_critical_section (c.2 t).
Proof.
  intros Hh Hexec Hown.
  destruct (execution_linearized method method_atomic method_returns
              _ _ _ _ Hh Hexec) as (rs & σe & d & _ & _ & Hm).
  rewrite Hown in Hm. destruct Hm as [(cl & p & r & -> & Hp & _) _].
  by apply critical_in_critical_section.
Qed.

(** While the mutex is free, the accumulator and the containers are as
    after the calls that have acquired it so far, made one after the
    other. *)
Lemma free_mutex_serial_state σ0 d0 calls c :
  holds σ0 d0 → execution method (σ0, λ _, Idle) calls c →
  m_mutex c.1 = None →
  quiescent c.1 ∧ ∃ rs, run method calls σ0 = Some (rs, c.1).
Proof.
  intros Hh Hexec Hfree.
  destruct (execution_linearized method method_atomic method_returns
              _ _ _ _ Hh Hexec) as (rs & σe & d & Hrun & Hhe & Hm).
  rewrite Hfree in Hm. destruct Hm as [-> _].
  split; [by eapply holds_quiescent|by exists rs].
Qed.

(** A thread that has called and not yet acquired the mutex runs to its
    return when the mutex is free and no other thread is scheduled. *)
Lemma pending_execution t cl σ P r σ' :
  exec t (method cl) σ = Some (r, σ') → P t = Running cl (method cl) →
  ∃ P',
    execution method (σ, P) [(t, cl)] (σ', P')
    ∧ P' t = Idle
    ∧ ∀ t', t' ≠ t → P' t' = P t'.
Proof.
  intros Hex HP. pose proof (method_atomic cl) as Ha.
  destruct (method cl) as [|k| |] eqn:Hmethod; try done. simpl in Ha, Hex.
  destruct (m_mutex σ) eqn:Hm; [done|].
  set (P2 := <[t := Running cl k]> P).
  destruct (critical_execution method t cl k (set_mutex (Some t) σ) P2 r σ'
              Ha Hex) as (P' & Hexec & HP' & Hother);
    [by unfold P2; rewrite fn_lookup_insert|].
  assert (execution method (σ, P) [(t, cl)] (set_mutex (Some t) σ, P2)) as H2.
  { apply (execution_one method t (ev_lock cl)). by constructor. }
  assert (execution method (σ', P') [] (σ', <[t := Idle]> P')) as H4.
  { apply (execution_one method t (ev_return r)). by econstructor. }
  exists (<[t := Idle]> P'). split_and!.
  - exact (execution_app method _ _ _ _ _
             (execution_app method _ _ _ _ _ H2 Hexec) H4).
  - by rewrite fn_lookup_insert.
  - intros t' Hne. rewrite fn_lookup_insert_ne by done.
    rewrite Hother by done. unfold P2. by rewrite fn_lookup_insert_ne.
Qed.

(** The owner of the mutex can always run to the release of the mutex. *)
Lemma can_release σ0 calls c :
  linearized method σ0 calls c →
  ∃ c1,
    execution method c [] c1
    ∧ linearized method σ0 calls c1
    ∧ m_mutex c1.1 = None.
Proof.
  intros Hlin. destruct (m_mutex c.1) as [t0|] eqn:Hmutex.
  - destruct Hlin as (rs & σe & d & Hrun & Hhe & Hm). destruct c as [σ P].
    simpl in *. rewrite Hmutex in Hm.
    destruct Hm as [(cl & p & r & HP & Hp & Hex) Hout].
    destruct (critical_execution method t0 cl p σ P r σe Hp Hex HP)
      as (P' & Hexec & HP' & Hother).
    exists (σe, P'). split_and!; [done| |by destruct Hhe].
    rewrite <-(app_nil_r calls).
    apply (linearized_execution σ0 calls (σ, P) [] (σe, P')); [|exact Hexec].
    exists rs, σe, d. simpl. rewrite Hmutex.
    split; [done|]. split; [done|]. split; [by exists cl, p, r|done].
  - exists c. split_and!; [constructor|done..].
Qed.

(** From every configuration of an execution, every thread can be brought
    to the return of its call: no call waits for ever for the mutex. *)
Lemma can_return σ0 d0 calls c t :
  holds σ0 d0 → execution method (σ0, λ _, Idle) calls c →
  ∃ calls' c',
    execution method c calls' c' ∧ c'.2 t = Idle ∧ m_mutex c'.1 = None.
Proof.
  intros Hh Hexec.
  pose proof (execution_linearized method method_atomic method_returns
                _ _ _ _ Hh Hexec) as Hlin.
  destruct (can_release _ _ _ Hlin) as ([σ1 P1] & Hexec1 & Hlin1 & Hfree).
  destruct Hlin1 as (rs & σe & d & Hrun & Hhe & Hm). simpl in *.
  rewrite Hfree in Hm. destruct Hm as [-> Hout].
  pose proof (Hout t) as Ht.
  destruct (P1 t) as [|cl p] eqn:HP1.
  - exists [], (σe, P1). by split_and!.
  - destruct Ht as [->|[r ->]].
    + destruct (method_returns t cl σe d Hhe) as (res & σ' & d' & Hex & Hh' & _).
      destruct (pending_execution t cl σe P1 res σ' Hex HP1)
        as (P' & Hexec2 & HP' & _).
      exists ([] ++ [(t, cl)]), (σ', P'). split_and!; [|done|by destruct Hh'].
      by eapply execution_app.
    + exists ([] ++ []), (σe, <[t := Idle]> P1). split_and!.
      * eapply execution_app; [done|].
        apply (execution_one method t (ev_return r)). by econstructor.
      * simpl. by rewrite fn_lookup_insert.
      * done.
Qed.
End progress.

Section results.
Context {Data Call Result : Type} (method : Call → prog Data Result).
Hypothesis method_atomic : ∀ c, atomic (method c).
Hypothesis method_returns : ∀ t c σ d,
  holds σ d →
  ∃ res σ' d', exec t (method c) σ = Some (res, σ') ∧ holds σ' d' ∧ frame σ σ'.
Implicit Types (σ : state Data) (P : thread_id → thread Data Call Result).
Implicit Types (c : config Data Call Result).

Lemma run_length calls σ rs σ' :
  run method calls σ = Some (rs, σ') → length rs = length calls.
Proof.
  revert σ rs. induction calls as [|[t cl] calls IH]; intros σ rs Hrun.
  - by injection Hrun as <- <-.
  - rewrite run_cons in Hrun.
    destruct (exec t (method cl) σ) as [[r σ1]|]; [|done].
    destruct (run method calls σ1) as [[rs1 σ2]|] eqn:Hrun1; [|done].
    injection Hrun as <- <-. simpl. f_equal. by eapply IH.
Qed.

(** Along an execution, a thread that is about to return [r] from call
    [cl] has acquired the mutex for it at a position [i] of the order of the
    calls, has not acquired it since, and [r] is what the call at position
    [i] returns when the calls are made one after the other; the same
    holds, at the last position, for the result to which the owner of the
    mutex runs. *)
Lemma execution_results σ0 d0 calls c :
  holds σ0 d0 → execution method (σ0, λ _, Idle) calls c →
  ∃ rs σe,
    run method calls σ0 = Some (rs, σe)
    ∧ (∀ t cl r,
         c.2 t = Running cl (Ret r) →
         ∃ i,
           calls !! i = Some (t, cl) ∧ rs !! i = Some r
           ∧ ∀ j cl', i < j → calls !! j ≠ Some (t, cl'))
    ∧ (∀ t cl p,
         m_mutex c.1 = Some t → c.2 t = Running cl p →
         ∃ r,
           exec t p c.1 = Some (r, σe)
           ∧ last calls = Some (t, cl) ∧ last rs = Some r).
Proof.
  intros Hh Hexec. remember (σ0, λ _ : thread_id, Idle) as c0 eqn:Hc0.
  induction Hexec as [c|c1 calls c2 t e c3 Hexec IH Hstep]; subst.
  { exists [], σ0. destruct Hh as [Hm Hd]. simpl. split_and!; [done..|].
    intros t cl p. by rewrite Hm. }
  destruct (IH eq_refl) as (rs & σe & Hrun & Hret & Hown). clear IH.
  destruct (execution_linearized method method_atomic method_returns
              _ _ _ _ Hh Hexec) as (rs' & σe' & d & Hrun' & Hhe & Hm).
  rewrite Hrun in Hrun'. injection Hrun' as <- <-.
  destruct Hstep as [cl σ P HP|cl k σ P HP Hlock|X cl act k x h σ P HP Hact
                    |cl k σ P HP Hmine|cl r σ P HP]; simpl in *.
  - (* call *)
    rewrite app_nil_r. exists rs, σe. split_and!; [done|..].
    + intros t' cl' r'. destruct (decide (t = t')) as [<-|Hne].
      * rewrite fn_lookup_insert. intros [= -> Heq].
        pose proof (method_atomic cl') as Ha. by rewrite Heq in Ha.
      * rewrite fn_lookup_insert_ne by done. apply Hret.
    + intros t' cl' p Hmutex. destruct (decide (t = t')) as [<-|Hne].
      * rewrite Hmutex in Hm. destruct Hm as [(? & ? & ? & HP' & _) _].
        congruence.
      * rewrite fn_lookup_insert_ne by done. by apply Hown.
  - (* lock *)
    rewrite Hlock in Hm. destruct Hm as [-> Hout].
    pose proof (Hout t) as Ht. rewrite HP in Ht.
    destruct Ht as [Heq|[r [=]]].
    pose proof (method_atomic cl) as Ha. rewrite <-Heq in Ha. simpl in Ha.
    destruct (method_returns t cl σe d Hhe) as (res & σ' & d' & Hex & _).
    exists (rs ++ [res]), σ'. split_and!.
    + by rewrite run_app, Hrun, run_singleton, Hex.
    + intros t' cl' r'. destruct (decide (t = t')) as [<-|Hne].
      * rewrite fn_lookup_insert. intros [= -> ->]. done.
      * rewrite fn_lookup_insert_ne by done. intros HP'.
        destruct (Hret _ _ _ HP') as (i & Hi & Hri & Hlast).
        exists i. split_and!; [by apply lookup_app_l_Some..|].
        intros j cl'' Hij Hj.
        apply lookup_app_Some in Hj as [Hj|[_ Hj]]; [by eapply Hlast|].
        apply list_lookup_singleton_Some in Hj as [_ [=]]. done.
    + intros t' cl' p [= <-]. rewrite fn_lookup_insert. intros [= <- <-].
      exists res. rewrite !last_snoc. split_and!; [|done..].
      rewrite <-Heq in Hex. simpl in Hex. by rewrite Hlock in Hex.
  - (* access *)
    rewrite app_nil_r. exists rs, σe.
    assert (m_mutex σ = Some t) as Hmine.
    { destruct (m_mutex σ) as [t0|].
      - destruct Hm as [_ Hout]. destruct (decide (t = t0)) as [->|Hne]; [done|].
        pose proof (Hout t Hne) as Ht. rewrite HP in Ht.
        by apply (outside_Lock_or_Ret method method_atomic)
          in Ht as [[? [=]]|[? [=]]].
      - destruct Hm as [_ Hout]. pose proof (Hout t) as Ht. rewrite HP in Ht.
        by apply (outside_Lock_or_Ret method method_atomic)
          in Ht as [[? [=]]|[? [=]]]. }
    rewrite Hmine in Hm. destruct Hm as [(cl0 & p0 & r0 & HP0 & Hp0 & _) _].
    rewrite HP in HP0. injection HP0 as <- <-. simpl in Hp0.
    destruct (Hown t cl _ Hmine HP) as (r & Hex & Hlc & Hlr).
    simpl in Hex. rewrite Hact in Hex.
    split_and!; [done|..].
    + intros t' cl' r'. destruct (decide (t = t')) as [<-|Hne].
      * rewrite fn_lookup_insert. intros [= -> Heq].
        pose proof (Hp0 x) as Hkx. by rewrite Heq in Hkx.
      * rewrite fn_lookup_insert_ne by done. apply Hret.
    + intros t' cl' p Hmutex. rewrite Hmine in Hmutex. injection Hmutex as <-.
      rewrite fn_lookup_insert. intros [= <- <-]. by exists r.
  - (* unlock *)
    rewrite app_nil_r. exists rs, σe.
    rewrite Hmine in Hm. destruct Hm as [(cl0 & p0 & r0 & HP0 & Hp0 & _) _].
    rewrite HP in HP0. injection HP0 as <- <-.
    destruct k as [r'| | |]; try done.
    destruct (Hown t cl _ Hmine HP) as (r & Hex & Hlc & Hlr).
    simpl in Hex. rewrite decide_True in Hex by done. injection Hex as -> <-.
    split_and!; [done|..].
    + intros t' cl' r'. destruct (decide (t = t')) as [<-|Hne].
      * rewrite fn_lookup_insert. intros [= -> ->].
        exists (pred (length calls)).
        rewrite last_lookup in Hlc. rewrite last_lookup in Hlr.
        rewrite (run_length _ _ _ _ Hrun) in Hlr. split_and!; [done..|].
        intros j cl'' Hij Hj. apply lookup_lt_Some in Hj. lia.
      * rewrite fn_lookup_insert_ne by done. apply Hret.
    + intros t' cl' p [=].
  - (* return *)
    rewrite app_nil_r. exists rs, σe. split_and!; [done|..].
    + intros t' cl' r'. destruct (decide (t = t')) as [<-|Hne].
      * by rewrite fn_lookup_insert.
      * rewrite fn_lookup_insert_ne by done. apply Hret.
    + intros t' cl' p Hmutex. destruct (decide (t = t')) as [<-|Hne].
      * by rewrite fn_lookup_insert.
      * rewrite fn_lookup_insert_ne by done. by apply Hown.
Qed.
End results.

(** ** Counting and reordering insertions *)

Section counting.
Context `{Countable K} {V : Type} `{Countable T}.

Lemma last_writer_wins_keys (l : list (K * V)) :
  (last_writer_wins l).*1 = remove_dups l.*1.
Proof.
  induction l as [|[k v] l IH]; [done|].
  cbn [last_writer_wins]. rewrite fmap_cons. cbn [fst remove_dups].
  unfold decide_rel.
  destruct (decide (k ∈ l.*1)) as [Hk|Hk],
    (list_elem_of_dec k l.*1) as [Hk'|Hk']; try done.
  rewrite fmap_cons. by f_equal.
Qed.

Lemma last_writer_wins_NoDup (l : list (K * V)) :
  NoDup l.*1 → last_writer_wins l = l.
Proof.
  induction l as [|[k v] l IH]; [done|]. simpl.
  intros [Hk Hl]%NoDup_cons. rewrite decide_False by done. by rewrite IH.
Qed.

Lemma insert_or_assign_all_size (l : list (K * V)) :
  size (insert_or_assign_all l ∅) = length (remove_dups l.*1).
Proof.
  rewrite <-length_map_to_list, (insert_or_assign_all_entries l).
  by rewrite <-last_writer_wins_keys, length_fmap.
Qed.

Lemma insert_all_size (l : list T) :
  size (insert_all l ∅) = length (remove_dups l).
Proof.
  unfold size, set_size. simpl. by rewrite (insert_all_elements l).
Qed.

Lemma remove_dups_length_zero {A} `{EqDecision A} (l : list A) :
  length (remove_dups l) = 0 ↔ length l = 0.
Proof.
  split.
  - intros Hl%length_zero_iff_nil. destruct l as [|x l]; [done|].
    assert (x ∈ remove_dups (x :: l)) as Hx
      by (apply elem_of_remove_dups; left).
    rewrite Hl in Hx. by apply elem_of_nil in Hx.
  - by intros ->%length_zero_iff_nil.
Qed.

(** Insertions with pairwise different keys give the same map in every
    order. *)
Lemma insert_or_assign_all_Permutation (l1 l2 : list (K * V)) :
  NoDup l1.*1 → l1 ≡ₚ l2 →
  insert_or_assign_all l1 ∅ = insert_or_assign_all l2 ∅.
Proof.
  intros Hnd Hperm.
  assert (NoDup l2.*1) as Hnd2 by (by rewrite <-Hperm).
  apply map_eq. intros k. apply option_eq. intros v.
  rewrite !insert_or_assign_all_lookup, !lookup_empty.
  rewrite !last_writer_wins_NoDup by done. rewrite Hperm. naive_solver.
Qed.

Lemma insert_all_same_values (l1 l2 : list T) :
  (∀ x, x ∈ l1 ↔ x ∈ l2) → insert_all l1 ∅ = insert_all l2 ∅.
Proof.
  intros Hsame. rewrite !insert_all_union. apply set_eq. intros x.
  rewrite !elem_of_union, !elem_of_list_to_set. by rewrite Hsame.
Qed.
End counting.

(** ** When calls return *)

Section returning.
Context {Data : Type} `{Empty Data, Size Data}.
Implicit Types (σ : state Data) (d : Data).

Lemma container_empty_needs_live :
  needs_live (Data := Data) container_empty.
Proof.
  intros a h x h' Hact. unfold container_empty in Hact.
  by destruct (h !! a).
Qed.

Lemma container_size_needs_live :
  needs_live (Data := Data) container_size.
Proof.
  intros a h x h' Hact. unfold container_size in Hact.
  by destruct (h !! a).
Qed.

Lemma move_construct_needs_live :
  needs_live (Data := Data) move_construct.
Proof.
  intros a h x h' Hact. unfold move_construct in Hact.
  by destruct (h !! a).
Qed.

Lemma update_needs_live (f : Data → Data) :
  needs_live (λ a h, d ← h !! a; Some (tt, <[a := f d]> h)).
Proof. intros a h x h' Hact. by destruct (h !! a). Qed.

Lemma guarded_access_returns {X A : Type} t (act : addr → action Data X)
    (f : X → prog Data A) σ r σ' :
  needs_live act →
  exec t (bind (lock_guard (access act)) f) σ = Some (r, σ') → quiescent σ.
Proof.
  intros Hlive Hex. rewrite exec_bind in Hex.
  destruct (exec t (lock_guard (access act)) σ) as [[x σ1]|] eqn:Hex1; [|done].
  pose proof (exec_lock_guard_returns _ _ _ _ _ Hex1) as Hm.
  rewrite exec_lock_guard_access in Hex1 by done.
  destruct (act (m_data σ) (heap σ)) as [[x' h']|] eqn:Hact; [|done].
  split; [done|]. by eapply Hlive.
Qed.
End returning.

Lemma map_method_returns_quiescent `{Countable K} {V : Type} t
    (c : concurrent_unordered_map.call K V) σ r σ' :
  exec t (concurrent_unordered_map.method c) σ = Some (r, σ') → quiescent σ.
Proof.
  destruct c as [k v| | |]; apply guarded_access_returns.
  - apply (update_needs_live (λ d, <[k := v]> d)).
  - apply container_empty_needs_live.
  - apply container_size_needs_live.
  - apply move_construct_needs_live.
Qed.

Lemma set_method_returns_quiescent `{Countable T} t
    (c : concurrent_unordered_set.call T) σ r σ' :
  exec t (concurrent_unordered_set.method c) σ = Some (r, σ') → quiescent σ.
Proof.
  destruct c as [x|x| | |]; apply guarded_access_returns.
  - apply (update_needs_live (λ d, if decide (x ∈ d) then d else {[x]} ∪ d)).
  - apply (update_needs_live (λ d, if decide (x ∈ d) then d else {[x]} ∪ d)).
  - apply container_empty_needs_live.
  - apply container_size_needs_live.
  - apply move_construct_needs_live.
Qed.

(** ** Further properties of the accumulators *)

(** X1.  After insertions into a new accumulator, size() returns the number
    of different keys (map) or values (set) inserted, empty() returns true
    exactly when nothing was inserted, and consume returns a container with
    that number of entries. *)
Theorem size_counts_distinct_insertions :
  (∀ (K : Type) (EqK : EqDecision K) (CountK : Countable K) (V : Type)
     (h : gmap addr (gmap K V)) (l : list (thread_id * (K * V)))
     (t : thread_id),
     ∃ σ1,
       run concurrent_unordered_map.method (map_inserts l) (construct h)
       = Some (replicate (length l) ret_void, σ1)
       ∧ exec t concurrent_unordered_map.size σ1
         = Some (length (remove_dups l.*2.*1), σ1)
       ∧ exec t concurrent_unordered_map.empty σ1
         = Some (bool_decide (length l = 0), σ1)
       ∧ ∃ r σ' m,
           exec t concurrent_unordered_map.consume σ1 = Some (r, σ')
           ∧ heap σ' !! r = Some m
           ∧ size m = length (remove_dups l.*2.*1))
  ∧ (∀ (T : Type) (EqT : EqDecision T) (CountT : Countable T)
       (h : gmap addr (gset T)) (l : list (thread_id * (bool * T)))
       (t : thread_id),
       ∃ σ1,
         run concurrent_unordered_set.method (set_inserts l) (construct h)
         = Some (replicate (length l) ret_void, σ1)
         ∧ exec t concurrent_unordered_set.size σ1
           = Some (length (remove_dups l.*2.*2), σ1)
         ∧ exec t concurrent_unordered_set.empty σ1
           = Some (bool_decide (length l = 0), σ1)
         ∧ ∃ r σ' s,
             exec t concurrent_unordered_set.consume σ1 = Some (r, σ')
             ∧ heap σ' !! r = Some s
             ∧ size s = length (remove_dups l.*2.*2)).
Proof.
  split.
  - intros K EqK CountK V h l t.
    destruct (map_run_inserts l _ _ (construct_holds h)) as (σ1 & Hrun & Hh1 & _).
    destruct (guarded_move_spec t σ1 _ Hh1)
      as (r & σ' & Hex & _ & _ & _ & _ & Hr & _).
    exists σ1. split_and!; [done| | |].
    + by rewrite (map_exec_size t _ _ Hh1), insert_or_assign_all_size.
    + rewrite (map_exec_empty t _ _ Hh1), insert_or_assign_all_size.
      do 2 f_equal. apply bool_decide_ext.
      by rewrite remove_dups_length_zero, !length_fmap.
    + exists r, σ', (insert_or_assign_all l.*2 ∅).
      split_and!; [done..|apply insert_or_assign_all_size].
  - intros T EqT CountT h l t.
    destruct (set_run_inserts l _ _ (construct_holds h)) as (σ1 & Hrun & Hh1 & _).
    destruct (guarded_move_spec t σ1 _ Hh1)
      as (r & σ' & Hex & _ & _ & _ & _ & Hr & _).
    exists σ1. split_and!; [done| | |].
    + by rewrite (set_exec_size t _ _ Hh1), insert_all_size.
    + rewrite (set_exec_empty t _ _ Hh1), insert_all_size.
      do 2 f_equal. apply bool_decide_ext.
      by rewrite remove_dups_length_zero, !length_fmap.
    + exists r, σ', (insert_all l.*2.*2 ∅).
      split_and!; [done..|apply insert_all_size].
Qed.

Section schedules.
Context `{Countable K} {V : Type} `{Countable T}.

(** What the accumulator holds when concurrent insertions into a new
    accumulator have all returned. *)
Lemma map_concurrent_inserts (h : gmap addr (gmap K V))
    (l : list (thread_id * (K * V))) σ P :
  execution concurrent_unordered_map.method
    (construct h, λ _, Idle) (map_inserts l) (σ, P) →
  (∀ t, P t = Idle) →
  holds σ (insert_or_assign_all l.*2 ∅).
Proof.
  intros Hexec Hidle.
  destruct (interleaving_linearizable concurrent_unordered_map.method
              map_method_atomic (λ t c σ d, map_method_returns t c σ d)
              _ _ _ _ _ (construct_holds h) Hexec Hidle) as [rs Hrun].
  destruct (map_run_inserts l _ _ (construct_holds h)) as (σ1 & Hrun1 & Hh1 & _).
  by assert (σ1 = σ) as <- by congruence.
Qed.

Lemma set_concurrent_inserts (h : gmap addr (gset T))
    (l : list (thread_id * (bool * T))) σ P :
  execution concurrent_unordered_set.method
    (construct h, λ _, Idle) (set_inserts l) (σ, P) →
  (∀ t, P t = Idle) →
  holds σ (insert_all l.*2.*2 ∅).
Proof.
  intros Hexec Hidle.
  destruct (interleaving_linearizable concurrent_unordered_set.method
              set_method_atomic (λ t c σ d, set_method_returns t c σ d)
              _ _ _ _ _ (construct_holds h) Hexec Hidle) as [rs Hrun].
  destruct (set_run_inserts l _ _ (construct_holds h)) as (σ1 & Hrun1 & Hh1 & _).
  by assert (σ1 = σ) as <- by congruence.
Qed.
End schedules.

(** X2.  The outcome of concurrent insertions does not depend on the
    schedule.  Map: when the inserted keys are pairwise different, two
    interleaved executions that insert the same entries, in whatever order
    the threads acquire the mutex, leave the accumulator holding the same
    map; it has one entry per insertion, each with the value inserted.  Set:
    two interleaved executions that insert the same values, in any order
    and any number of times each, leave the accumulator holding the same
    set. *)
Theorem insertions_commute :
  (∀ (K : Type) (EqK : EqDecision K) (CountK : Countable K) (V : Type)
     (h : gmap addr (gmap K V)) (l1 l2 : list (thread_id * (K * V)))
     (σ1 σ2 : state (gmap K V)) P1 P2,
     NoDup l1.*2.*1 →
     l1.*2 ≡ₚ l2.*2 →
     execution concurrent_unordered_map.method
       (construct h, λ _, Idle) (map_inserts l1) (σ1, P1) →
     (∀ t, P1 t = Idle) →
     execution concurrent_unordered_map.method
       (construct h, λ _, Idle) (map_inserts l2) (σ2, P2) →
     (∀ t, P2 t = Idle) →
     ∃ m,
       contents σ1 = Some m
       ∧ contents σ2 = Some m
       ∧ size m = length l1
       ∧ ∀ k v, (k, v) ∈ l1.*2 → m !! k = Some v)
  ∧ (∀ (T : Type) (EqT : EqDecision T) (CountT : Countable T)
       (h : gmap addr (gset T)) (l1 l2 : list (thread_id * (bool * T)))
       (σ1 σ2 : state (gset T)) P1 P2,
       (∀ x, x ∈ l1.*2.*2 ↔ x ∈ l2.*2.*2) →
       execution concurrent_unordered_set.method
         (construct h, λ _, Idle) (set_inserts l1) (σ1, P1) →
       (∀ t, P1 t = Idle) →
       execution concurrent_unordered_set.method
         (construct h, λ _, Idle) (set_inserts l2) (σ2, P2) →
       (∀ t, P2 t = Idle) →
       ∃ s,
         contents σ1 = Some s
         ∧ contents σ2 = Some s
         ∧ ∀ x, x ∈ s ↔ x ∈ l1.*2.*2).
Proof.
  split.
  - intros K EqK CountK V h l1 l2 σ1 σ2 P1 P2 Hnd Hperm Hexec1 Hidle1
      Hexec2 Hidle2.
    destruct (map_concurrent_inserts h l1 σ1 P1 Hexec1 Hidle1) as [_ Hc1].
    destruct (map_concurrent_inserts h l2 σ2 P2 Hexec2 Hidle2) as [_ Hc2].
    exists (insert_or_assign_all l1.*2 ∅). split_and!; [done| | |].
    + by rewrite (insert_or_assign_all_Permutation l1.*2 l2.*2 Hnd Hperm).
    + rewrite <-length_map_to_list, (insert_or_assign_all_entries l1.*2).
      rewrite last_writer_wins_NoDup by done. by rewrite length_fmap.
    + intros k v Hin. apply insert_or_assign_all_lookup. left.
      by rewrite last_writer_wins_NoDup.
  - intros T EqT CountT h l1 l2 σ1 σ2 P1 P2 Hsame Hexec1 Hidle1 Hexec2 Hidle2.
    destruct (set_concurrent_inserts h l1 σ1 P1 Hexec1 Hidle1) as [_ Hc1].
    destruct (set_concurrent_inserts h l2 σ2 P2 Hexec2 Hidle2) as [_ Hc2].
    exists (insert_all l1.*2.*2 ∅). split_and!; [done| |].
    + by rewrite (insert_all_same_values l1.*2.*2 l2.*2.*2 Hsame).
    + intros x. rewrite insert_all_union. set_solver.
Qed.

Lemma insertions_commute_witness :
  (NoDup scenarios.spread.*2.*1
   ∧ scenarios.spread.*2 ≡ₚ scenarios.spread_swapped.*2
   ∧ ∃ P1 P2,
       (execution concurrent_unordered_map.method
          (construct ∅, λ _, Idle) (map_inserts scenarios.spread)
          (scenarios.spread_state, P1)
        ∧ (∀ t, P1 t = Idle)
        ∧ execution concurrent_unordered_map.method
            (construct ∅, λ _, Idle) (map_inserts scenarios.spread_swapped)
            (scenarios.spread_state, P2)
        ∧ (∀ t, P2 t = Idle))
       ∧ ∃ m,
           contents scenarios.spread_state = Some m
           ∧ contents scenarios.spread_state = Some m
           ∧ size m = length scenarios.spread
           ∧ ∀ k v, (k, v) ∈ scenarios.spread.*2 → m !! k = Some v)
  ∧ ((∀ x, x ∈ [(1, (false, 7)); (0, (true, 7))].*2.*2
           ↔ x ∈ scenarios.single.*2.*2)
     ∧ ∃ P1 P2,
         (execution concurrent_unordered_set.method
            (construct ∅, λ _, Idle)
            (set_inserts [(1, (false, 7)); (0, (true, 7))])
            (examples.holding_set, P1)
          ∧ (∀ t, P1 t = Idle)
          ∧ execution concurrent_unordered_set.method
              (construct ∅, λ _, Idle) (set_inserts scenarios.single)
              (examples.holding_set, P2)
          ∧ (∀ t, P2 t = Idle))
         ∧ ∃ s,
             contents examples.holding_set = Some s
             ∧ contents examples.holding_set = Some s
             ∧ ∀ x, x ∈ s ↔ x ∈ [(1, (false, 7)); (0, (true, 7))].*2.*2).
Proof.
  split.
  - assert (NoDup scenarios.spread.*2.*1) as Hnd
      by (apply NoDup_cons; split; [set_solver|apply NoDup_singleton]).
    assert (scenarios.spread.*2 ≡ₚ scenarios.spread_swapped.*2) as Hperm
      by apply perm_swap.
    assert (run concurrent_unordered_map.method
              (map_inserts scenarios.spread) (construct ∅)
            = Some ([ret_void; ret_void], scenarios.spread_state)) as Hrun1
      by (vm_compute; reflexivity).
    assert (run concurrent_unordered_map.method
              (map_inserts scenarios.spread_swapped) (construct ∅)
            = Some ([ret_void; ret_void], scenarios.spread_state)) as Hrun2
      by (vm_compute; reflexivity).
    destruct (run_execution concurrent_unordered_map.method map_method_atomic
                _ _ (λ _, Idle) _ _ Hrun1 (λ _, eq_refl))
      as (P1 & Hexec1 & Hidle1).
    destruct (run_execution concurrent_unordered_map.method map_method_atomic
                _ _ (λ _, Idle) _ _ Hrun2 (λ _, eq_refl))
      as (P2 & Hexec2 & Hidle2).
    split_and!; [exact Hnd|exact Hperm|].
    exists P1, P2. split; [by split_and!|].
    exact (proj1 insertions_commute nat _ _ nat ∅
             scenarios.spread scenarios.spread_swapped _ _ P1 P2
             Hnd Hperm Hexec1 Hidle1 Hexec2 Hidle2).
  - assert (∀ x, x ∈ [(1, (false, 7)); (0, (true, 7))].*2.*2
                 ↔ x ∈ scenarios.single.*2.*2) as Hsame
      by (intros x; set_solver).
    destruct examples_racing_set_execution as (P1 & Hexec1 & Hidle1).
    assert (run concurrent_unordered_set.method
              (set_inserts scenarios.single) (construct ∅)
            = Some ([ret_void], examples.holding_set)) as Hrun2
      by (vm_compute; reflexivity).
    destruct (run_execution concurrent_unordered_set.method set_method_atomic
                _ _ (λ _, Idle) _ _ Hrun2 (λ _, eq_refl))
      as (P2 & Hexec2 & Hidle2).
    split; [exact Hsame|].
    exists P1, P2. split; [by split_and!|].
    exact (proj2 insertions_commute nat _ _ ∅
             [(1, (false, 7)); (0, (true, 7))] scenarios.single _ _ P1 P2
             Hsame Hexec1 Hidle1 Hexec2 Hidle2).
Defined.

(** X3.  Along every interleaved execution from an accumulator in which
    no call is in progress, the mutex is owned exactly by the thread that is
    inside a critical section: no method returns, and none starts, holding
    the mutex.  And whenever the mutex is free, threads in the middle of
    calls or not, the member container is alive and the accumulator and the
    containers are exactly as after the calls that have acquired the mutex
    so far, made one after the other. *)
Theorem mutex_owned_exactly_in_critical_section :
  (∀ (K : Type) (EqK : EqDecision K) (CountK : Countable K) (V : Type)
     (σ0 : state (gmap K V)) (d0 : gmap K V) calls
     (c : config (gmap K V) (concurrent_unordered_map.call K V) result),
     holds σ0 d0 →
     execution concurrent_unordered_map.method (σ0, λ _, Idle) calls c →
     (∀ t, m_mutex c.1 = Some t ↔ in_critical_section (c.2 t))
     ∧ (m_mutex c.1 = None →
        quiescent c.1
        ∧ ∃ rs, run concurrent_unordered_map.method calls σ0 = Some (rs, c.1)))
  ∧ (∀ (T : Type) (EqT : EqDecision T) (CountT : Countable T)
       (σ0 : state (gset T)) (d0 : gset T) calls
       (c : config (gset T) (concurrent_unordered_set.call T) result),
       holds σ0 d0 →
       execution concurrent_unordered_set.method (σ0, λ _, Idle) calls c →
       (∀ t, m_mutex c.1 = Some t ↔ in_critical_section (c.2 t))
       ∧ (m_mutex c.1 = None →
          quiescent c.1
          ∧ ∃ rs,
              run concurrent_unordered_set.method calls σ0 = Some (rs, c.1))).
Proof.
  split.
  - intros K EqK CountK V σ0 d0 calls c Hh Hexec. split.
    + intros t. split.
      * by apply (owner_in_critical_section _ map_method_atomic
                    (λ t c σ d, map_method_returns t c σ d) σ0 d0 calls).
      * apply (critical_section_owner _ map_method_guarded).
        eapply execution_reachable; [by eapply holds_quiescent|done].
    + by apply (free_mutex_serial_state _ map_method_atomic
                  (λ t c σ d, map_method_returns t c σ d) σ0 d0).
  - intros T EqT CountT σ0 d0 calls c Hh Hexec. split.
    + intros t. split.
      * by apply (owner_in_critical_section _ set_method_atomic
                    (λ t c σ d, set_method_returns t c σ d) σ0 d0 calls).
      * apply (critical_section_owner _ set_method_guarded).
        eapply execution_reachable; [by eapply holds_quiescent|done].
    + by apply (free_mutex_serial_state _ set_method_atomic
                  (λ t c σ d, set_method_returns t c σ d) σ0 d0).
Qed.

(** X4.  No call waits for ever: from every configuration of an
    interleaved execution and for every thread, the execution can be
    continued to a configuration in which the thread has returned from its
    call and the mutex is free. *)
Theorem every_call_can_return :
  (∀ (K : Type) (EqK : EqDecision K) (CountK : Countable K) (V : Type)
     (σ0 : state (gmap K V)) (d0 : gmap K V) calls
     (c : config (gmap K V) (concurrent_unordered_map.call K V) result)
     (t : thread_id),
     holds σ0 d0 →
     execution concurrent_unordered_map.method (σ0, λ _, Idle) calls c →
     ∃ calls' c',
       execution concurrent_unordered_map.method c calls' c'
       ∧ c'.2 t = Idle ∧ m_mutex c'.1 = None)
  ∧ (∀ (T : Type) (EqT : EqDecision T) (CountT : Countable T)
       (σ0 : state (gset T)) (d0 : gset T) calls
       (c : config (gset T) (concurrent_unordered_set.call T) result)
       (t : thread_id),
       holds σ0 d0 →
       execution concurrent_unordered_set.method (σ0, λ _, Idle) calls c →
       ∃ calls' c',
         execution concurrent_unordered_set.method c calls' c'
         ∧ c'.2 t = Idle ∧ m_mutex c'.1 = None).
Proof.
  split.
  - intros K EqK CountK V σ0 d0 calls c t.
    apply (can_return _ map_method_atomic
             (λ t c σ d, map_method_returns t c σ d)).
  - intros T EqT CountT σ0 d0 calls c t.
    apply (can_return _ set_method_atomic
             (λ t c σ d, set_method_returns t c σ d)).
Qed.

Lemma examples_locked_execution :
  execution concurrent_unordered_map.method
    (examples.fresh_map, λ _, Idle)
    [(0, concurrent_unordered_map.call_insert_or_assign 1 10)]
    examples.locked.
Proof.
  pose (c10 := concurrent_unordered_map.call_insert_or_assign 1 10).
  pose proof (execution_refl concurrent_unordered_map.method
                (examples.fresh_map, λ _, Idle)) as E.
  eapply (execution_step _ _ _ _ 0 (ev_call c10)) in E; [|by constructor].
  eapply (execution_step _ _ _ _ 0 (ev_lock c10)) in E; [|by constructor].
  exact E.
Qed.

Lemma mutex_owned_exactly_in_critical_section_witness :
  holds examples.fresh_map ∅
  ∧ execution concurrent_unordered_map.method
      (examples.fresh_map, λ _, Idle)
      [(0, concurrent_unordered_map.call_insert_or_assign 1 10)]
      examples.locked
  ∧ (m_mutex examples.locked.1 = Some 0
     ↔ in_critical_section (examples.locked.2 0)).
Proof.
  assert (holds examples.fresh_map ∅) as Hh
    by (split; vm_compute; reflexivity).
  pose proof examples_locked_execution as Hexec.
  split_and!; [exact Hh|exact Hexec|].
  exact (proj1 (proj1 mutex_owned_exactly_in_critical_section nat _ _ nat
                  examples.fresh_map ∅ _ examples.locked Hh Hexec) 0).
Defined.

Lemma every_call_can_return_witness :
  holds examples.fresh_map ∅
  ∧ execution concurrent_unordered_map.method
      (examples.fresh_map, λ _, Idle)
      [(0, concurrent_unordered_map.call_insert_or_assign 1 10)]
      examples.locked
  ∧ ∃ calls' c',
      execution concurrent_unordered_map.method examples.locked calls' c'
      ∧ c'.2 0 = Idle ∧ m_mutex c'.1 = None.
Proof.
  assert (holds examples.fresh_map ∅) as Hh
    by (split; vm_compute; reflexivity).
  pose proof examples_locked_execution as Hexec.
  split_and!; [exact Hh|exact Hexec|].
  exact (proj1 every_call_can_return nat _ _ nat
           examples.fresh_map ∅ _ examples.locked 0 Hh Hexec).
Defined.

(** X5.  A call of any method returns exactly when it is made while the
    mutex is free and the member container is alive; it then leaves the
    mutex free and the member alive, at the same address, so that any
    sequence of calls (consume included) returns and the accumulator has no
    final state.  A call made while the mutex is held does not return
    (it waits; made by the owner itself it is undefined). *)
Theorem calls_return_exactly_when_quiescent :
  (∀ (K : Type) (EqK : EqDecision K) (CountK : Countable K) (V : Type)
     (σ : state (gmap K V)) (t : thread_id),
     (∀ c,
        quiescent σ
        ↔ ∃ r σ', exec t (concurrent_unordered_map.method c) σ = Some (r, σ'))
     ∧ (∀ c r σ',
          exec t (concurrent_unordered_map.method c) σ = Some (r, σ') →
          quiescent σ' ∧ m_data σ' = m_data σ)
     ∧ (∀ c t',
          m_mutex σ = Some t' →
          exec t (concurrent_unordered_map.method c) σ = None)
     ∧ (∀ calls,
          quiescent σ →
          ∃ rs σ',
            run concurrent_unordered_map.method calls σ = Some (rs, σ')
            ∧ quiescent σ'))
  ∧ (∀ (T : Type) (EqT : EqDecision T) (CountT : Countable T)
       (σ : state (gset T)) (t : thread_id),
       (∀ c,
          quiescent σ
          ↔ ∃ r σ',
              exec t (concurrent_unordered_set.method c) σ = Some (r, σ'))
       ∧ (∀ c r σ',
            exec t (concurrent_unordered_set.method c) σ = Some (r, σ') →
            quiescent σ' ∧ m_data σ' = m_data σ)
       ∧ (∀ c t',
            m_mutex σ = Some t' →
            exec t (concurrent_unordered_set.method c) σ = None)
       ∧ (∀ calls,
            quiescent σ →
            ∃ rs σ',
              run concurrent_unordered_set.method calls σ = Some (rs, σ')
              ∧ quiescent σ')).
Proof.
  split.
  - intros K EqK CountK V σ t.
    assert (∀ c,
      quiescent σ →
      ∃ r σ',
        exec t (concurrent_unordered_map.method c) σ = Some (r, σ')
        ∧ quiescent σ' ∧ m_data σ' = m_data σ) as Hret.
    { intros c [d Hh]%quiescent_holds.
      destruct (map_method_returns t c σ d Hh) as (r & σ' & d' & Hex & Hh' & Hf).
      exists r, σ'. split_and!; [done|by eapply holds_quiescent|by destruct Hf]. }
    split_and!.
    + intros c. split.
      * intros Hq. destruct (Hret c Hq) as (r & σ' & Hex & _). by exists r, σ'.
      * intros (r & σ' & Hex). by eapply map_method_returns_quiescent.
    + intros c r σ' Hex.
      destruct (Hret c (map_method_returns_quiescent _ _ _ _ _ Hex))
        as (r1 & σ1 & Hex1 & Hq1 & Hm1).
      by assert (σ1 = σ') as <- by congruence.
    + intros c t' Hm. destruct c; simpl; by rewrite Hm.
    + intros calls [d Hh]%quiescent_holds.
      destruct (run_returns _ (λ t c σ d, map_method_returns t c σ d)
                  calls σ d Hh) as (rs & σ' & d' & Hrun & Hh' & _).
      exists rs, σ'. split; [done|by eapply holds_quiescent].
  - intros T EqT CountT σ t.
    assert (∀ c,
      quiescent σ →
      ∃ r σ',
        exec t (concurrent_unordered_set.method c) σ = Some (r, σ')
        ∧ quiescent σ' ∧ m_data σ' = m_data σ) as Hret.
    { intros c [d Hh]%quiescent_holds.
      destruct (set_method_returns t c σ d Hh) as (r & σ' & d' & Hex & Hh' & Hf).
      exists r, σ'. split_and!; [done|by eapply holds_quiescent|by destruct Hf]. }
    split_and!.
    + intros c. split.
      * intros Hq. destruct (Hret c Hq) as (r & σ' & Hex & _). by exists r, σ'.
      * intros (r & σ' & Hex). by eapply set_method_returns_quiescent.
    + intros c r σ' Hex.
      destruct (Hret c (set_method_returns_quiescent _ _ _ _ _ Hex))
        as (r1 & σ1 & Hex1 & Hq1 & Hm1).
      by assert (σ1 = σ') as <- by congruence.
    + intros c t' Hm. destruct c; simpl; by rewrite Hm.
    + intros calls [d Hh]%quiescent_holds.
      destruct (run_returns _ (λ t c σ d, set_method_returns t c σ d)
                  calls σ d Hh) as (rs & σ' & d' & Hrun & Hh' & _).
      exists rs, σ'. split; [done|by eapply holds_quiescent].
Qed.

Lemma calls_return_exactly_when_quiescent_witness :
  quiescent examples.holding
  ∧ ∃ rs σ',
      run concurrent_unordered_map.method examples.later_calls
        examples.holding = Some (rs, σ')
      ∧ quiescent σ'.
Proof.
  assert (quiescent examples.holding) as Hq
    by (split; [reflexivity|by eexists]).
  split; [exact Hq|].
  exact (proj2 (proj2 (proj2
           (proj1 calls_return_exactly_when_quiescent nat _ _ nat
              examples.holding 0))) examples.later_calls Hq).
Defined.

(** X6.  The results of the calls are those of a sequential run: when a
    thread returns from a call in an interleaved execution, the result it
    returns is the result that its call (the latest call of the thread to
    have acquired the mutex) has when the calls are made one after the
    other in the order in which they acquired the mutex. *)
Theorem returned_results_are_sequential :
  (∀ (K : Type) (EqK : EqDecision K) (CountK : Countable K) (V : Type)
     (σ0 : state (gmap K V)) (d0 : gmap K V) calls
     (c c' : config (gmap K V) (concurrent_unordered_map.call K V) result)
     (t : thread_id) (r : result),
     holds σ0 d0 →
     execution concurrent_unordered_map.method (σ0, λ _, Idle) calls c →
     step concurrent_unordered_map.method t (ev_return r) c c' →
     ∃ rs σe i cl,
       run concurrent_unordered_map.method calls σ0 = Some (rs, σe)
       ∧ c.2 t = Running cl (Ret r)
       ∧ calls !! i = Some (t, cl)
       ∧ rs !! i = Some r
       ∧ ∀ j cl', i < j → calls !! j ≠ Some (t, cl'))
  ∧ (∀ (T : Type) (EqT : EqDecision T) (CountT : Countable T)
       (σ0 : state (gset T)) (d0 : gset T) calls
       (c c' : config (gset T) (concurrent_unordered_set.call T) result)
       (t : thread_id) (r : result),
       holds σ0 d0 →
       execution concurrent_unordered_set.method (σ0, λ _, Idle) calls c →
       step concurrent_unordered_set.method t (ev_return r) c c' →
       ∃ rs σe i cl,
         run concurrent_unordered_set.method calls σ0 = Some (rs, σe)
         ∧ c.2 t = Running cl (Ret r)
         ∧ calls !! i = Some (t, cl)
         ∧ rs !! i = Some r
         ∧ ∀ j cl', i < j → calls !! j ≠ Some (t, cl')).
Proof.
  split.
  - intros K EqK CountK V σ0 d0 calls c c' t r Hh Hexec Hstep.
    destruct (execution_results _ map_method_atomic
                (λ t c σ d, map_method_returns t c σ d) σ0 d0 calls c Hh Hexec)
      as (rs & σe & Hrun & Hret & _).
    inversion Hstep as [| | | |cl r' σ P HP]; subst.
    destruct (Hret t cl r HP) as (i & Hi & Hr & Hlast).
    by exists rs, σe, i, cl.
  - intros T EqT CountT σ0 d0 calls c c' t r Hh Hexec Hstep.
    destruct (execution_results _ set_method_atomic
                (λ t c σ d, set_method_returns t c σ d) σ0 d0 calls c Hh Hexec)
      as (rs & σe & Hrun & Hret & _).
    inversion Hstep as [| | | |cl r' σ P HP]; subst.
    destruct (Hret t cl r HP) as (i & Hi & Hr & Hlast).
    by exists rs, σe, i, cl.
Qed.

(** Thread 3 calls size() on an accumulator that holds one entry and is
    about to return 1. *)
Lemma examples_size_execution :
  ∃ c,
    execution concurrent_unordered_map.method
      (examples.holding, λ _, Idle)
      [(3, concurrent_unordered_map.call_size)] c
    ∧ c.2 3 = Running concurrent_unordered_map.call_size (Ret (ret_size 1)).
Proof.
  pose (cs := @concurrent_unordered_map.call_size nat nat).
  pose proof (execution_refl concurrent_unordered_map.method
                (examples.holding, λ _, Idle)) as E.
  eapply (execution_step _ _ _ _ 3 (ev_call cs)) in E; [|by constructor].
  eapply (execution_step _ _ _ _ 3 (ev_lock cs)) in E; [|by constructor].
  eapply (execution_step _ _ _ _ 3 ev_access) in E;
    [|by apply (step_access _ 3 cs container_size
                  (λ n, Unlock (Ret (ret_size n))) 1)].
  eapply (execution_step _ _ _ _ 3 ev_unlock) in E; [|by constructor].
  eexists. split; [exact E|]. reflexivity.
Qed.

Lemma returned_results_are_sequential_witness :
  ∃ c c' : config (gmap nat nat) (concurrent_unordered_map.call nat nat) result,
    holds examples.holding {[1 := 10]}
    ∧ execution concurrent_unordered_map.method
        (examples.holding, λ _, Idle)
        [(3, concurrent_unordered_map.call_size)] c
    ∧ step concurrent_unordered_map.method 3 (ev_return (ret_size 1)) c c'
    ∧ ∃ rs σe i cl,
        run concurrent_unordered_map.method
          [(3, concurrent_unordered_map.call_size)] examples.holding
        = Some (rs, σe)
        ∧ c.2 3 = Running cl (Ret (ret_size 1))
        ∧ [(3, @concurrent_unordered_map.call_size nat nat)] !! i
          = Some (3, cl)
        ∧ rs !! i = Some (ret_size 1)
        ∧ ∀ j cl',
            i < j →
            [(3, @concurrent_unordered_map.call_size nat nat)] !! j
            ≠ Some (3, cl').
Proof.
  destruct examples_size_execution as ([σ P] & Hexec & HP).
  assert (holds examples.holding ({[1 := 10]} : gmap nat nat)) as Hh
    by (split; vm_compute; reflexivity).
  assert (step concurrent_unordered_map.method 3 (ev_return (ret_size 1))
            (σ, P) (σ, <[3 := Idle]> P)) as Hstep
    by (by econstructor).
  exists (σ, P), (σ, <[3 := Idle]> P).
  split_and!; [exact Hh|exact Hexec|exact Hstep|].
  exact (proj1 returned_results_are_sequential nat _ _ nat
           examples.holding {[1 := 10]} _ _ _ 3 (ret_size 1) Hh Hexec Hstep).
Defined.

(** X7.  A consume that races with insertions loses none of them and
    returns none twice: when threads insert, one thread consumes and
    threads insert again, in any interleaving, and all calls have
    returned, the container that consume returned holds the entries of
    the insertions that acquired the mutex before consume did, and the
    accumulator holds the entries of the insertions that acquired it after;
    the returned container is a new one, different from the member. *)
Theorem racing_consume_splits_insertions :
  (∀ (K : Type) (EqK : EqDecision K) (CountK : Countable K) (V : Type)
     (h : gmap addr (gmap K V)) (l1 l2 : list (thread_id * (K * V)))
     (t : thread_id) σ P,
     execution concurrent_unordered_map.method (construct h, λ _, Idle)
       ((map_inserts l1 ++ [(t, concurrent_unordered_map.call_consume)])
        ++ map_inserts l2) (σ, P) →
     (∀ t', P t' = Idle) →
     ∃ r,
       run concurrent_unordered_map.method
         ((map_inserts l1 ++ [(t, concurrent_unordered_map.call_consume)])
          ++ map_inserts l2) (construct h)
       = Some ((replicate (length l1) ret_void ++ [ret_container r])
               ++ replicate (length l2) ret_void, σ)
       ∧ heap (construct h) !! r = None
       ∧ r ≠ m_data σ
       ∧ heap σ !! r = Some (insert_or_assign_all l1.*2 ∅)
       ∧ holds σ (insert_or_assign_all l2.*2 ∅))
  ∧ (∀ (T : Type) (EqT : EqDecision T) (CountT : Countable T)
       (h : gmap addr (gset T)) (l1 l2 : list (thread_id * (bool * T)))
       (t : thread_id) σ P,
       execution concurrent_unordered_set.method (construct h, λ _, Idle)
         ((set_inserts l1 ++ [(t, concurrent_unordered_set.call_consume)])
          ++ set_inserts l2) (σ, P) →
       (∀ t', P t' = Idle) →
       ∃ r,
         run concurrent_unordered_set.method
           ((set_inserts l1 ++ [(t, concurrent_unordered_set.call_consume)])
            ++ set_inserts l2) (construct h)
         = Some ((replicate (length l1) ret_void ++ [ret_container r])
                 ++ replicate (length l2) ret_void, σ)
         ∧ heap (construct h) !! r = None
         ∧ r ≠ m_data σ
         ∧ heap σ !! r = Some (insert_all l1.*2.*2 ∅)
         ∧ holds σ (insert_all l2.*2.*2 ∅)).
Proof.
  split.
  - intros K EqK CountK V h l1 l2 t σ P Hexec Hidle.
    destruct (interleaving_linearizable concurrent_unordered_map.method
                map_method_atomic (λ t c σ d, map_method_returns t c σ d)
                _ _ _ _ _ (construct_holds h) Hexec Hidle) as [rs Hrun].
    destruct (map_round l1 t _ _ (construct_holds h))
      as (r & σ1 & Hrun1 & Hh1 & Hnew & Hr & Hf1).
    destruct (map_run_inserts l2 σ1 ∅ Hh1) as (σ2 & Hrun2 & Hh2 & Hf2).
    rewrite run_app, Hrun1, Hrun2 in Hrun. injection Hrun as <- <-.
    assert (r ≠ m_data σ1) as Hne.
    { intros ->. destruct Hf1 as [Hm _]. rewrite Hm in Hnew.
      destruct (construct_holds h) as [_ Hc]. unfold contents in Hc.
      congruence. }
    exists r. rewrite run_app, Hrun1, Hrun2.
    destruct Hf2 as [Hm2 Hf2].
    split_and!; [done|done|congruence| |done].
    rewrite Hf2; [done|done|by rewrite Hr].
  - intros T EqT CountT h l1 l2 t σ P Hexec Hidle.
    destruct (interleaving_linearizable concurrent_unordered_set.method
                set_method_atomic (λ t c σ d, set_method_returns t c σ d)
                _ _ _ _ _ (construct_holds h) Hexec Hidle) as [rs Hrun].
    destruct (set_round l1 t _ _ (construct_holds h))
      as (r & σ1 & Hrun1 & Hh1 & Hnew & Hr & Hf1).
    destruct (set_run_inserts l2 σ1 ∅ Hh1) as (σ2 & Hrun2 & Hh2 & Hf2).
    rewrite run_app, Hrun1, Hrun2 in Hrun. injection Hrun as <- <-.
    assert (r ≠ m_data σ1) as Hne.
    { intros ->. destruct Hf1 as [Hm _]. rewrite Hm in Hnew.
      destruct (construct_holds h) as [_ Hc]. unfold contents in Hc.
      congruence. }
    exists r. rewrite run_app, Hrun1, Hrun2.
    destruct Hf2 as [Hm2 Hf2].
    split_and!; [done|done|congruence| |done].
    rewrite Hf2; [done|done|by rewrite Hr].
Qed.

Lemma racing_consume_splits_insertions_witness :
  ∃ P,
    (execution concurrent_unordered_map.method (construct ∅, λ _, Idle)
       scenarios.split_calls (scenarios.split_state, P)
     ∧ ∀ t', P t' = Idle)
    ∧ ∃ r,
        run concurrent_unordered_map.method scenarios.split_calls (construct ∅)
        = Some ((replicate 1 ret_void ++ [ret_container r])
                ++ replicate 1 ret_void, scenarios.split_state)
        ∧ heap (construct (∅ : gmap addr (gmap nat nat))) !! r = None
        ∧ r ≠ m_data scenarios.split_state
        ∧ heap scenarios.split_state !! r
          = Some (insert_or_assign_all [(1, 11)] ∅)
        ∧ holds scenarios.split_state (insert_or_assign_all [(2, 20)] ∅).
Proof.
  assert (run concurrent_unordered_map.method scenarios.split_calls
            (construct ∅)
          = Some ([ret_void; ret_container 2%positive; ret_void],
                  scenarios.split_state)) as Hrun
    by (vm_compute; reflexivity).
  destruct (run_execution concurrent_unordered_map.method map_method_atomic
              _ _ (λ _, Idle) _ _ Hrun (λ _, eq_refl))
    as (P & Hexec & Hidle).
  exists P. split; [by split|].
  exact (proj1 racing_consume_splits_insertions nat _ _ nat ∅
           [(1, (1, 11))] [(2, (2, 20))] 0 scenarios.split_state P
           Hexec Hidle).
Defined.

(** ** Entries stay until consume *)

Section keeping.
Context `{Countable K} {V : Type}.

Lemma map_run_keeps (calls : list (thread_id * concurrent_unordered_map.call K V))
    (σ : state (gmap K V)) (d : gmap K V) rs σ' :
  holds σ d →
  Forall (λ tc, tc.2 ≠ concurrent_unordered_map.call_consume) calls →
  run concurrent_unordered_map.method calls σ = Some (rs, σ') →
  ∃ d',
    holds σ' d'
    ∧ dom d ⊆ dom d'
    ∧ ∀ k,
        (∀ t v, (t, concurrent_unordered_map.call_insert_or_assign k v) ∉ calls) →
        d' !! k = d !! k.
Proof.
  intros Hh Hall. revert σ d rs Hh.
  induction Hall as [|[t c] calls Hc _ IH]; intros σ d rs Hh Hrun.
  { injection Hrun as <- <-. by exists d. }
  rewrite run_cons in Hrun.
  destruct (exec t (concurrent_unordered_map.method c) σ)
    as [[r σ1]|] eqn:Hex; [|done].
  destruct (run concurrent_unordered_map.method calls σ1)
    as [[rs1 σ2]|] eqn:Hrun1; [|done].
  injection Hrun as <- <-.
  assert (∃ d1,
    holds σ1 d1 ∧ dom d ⊆ dom d1
    ∧ ∀ k, (∀ v, c ≠ concurrent_unordered_map.call_insert_or_assign k v) →
           d1 !! k = d !! k) as (d1 & Hh1 & Hdom1 & Hk1).
  { destruct c as [k0 v0| | |]; [| | |done];
      unfold concurrent_unordered_map.method in Hex;
      rewrite exec_bind in Hex.
    - rewrite (map_exec_insert_or_assign _ _ _ _ _ Hh) in Hex.
      injection Hex as <- <-. exists (<[k0 := v0]> d).
      split_and!; [apply holds_set_contents|set_solver|].
      intros k Hne. rewrite lookup_insert_ne; [done|].
      intros ->. by apply (Hne v0).
    - rewrite (map_exec_empty _ _ _ Hh) in Hex. injection Hex as <- <-.
      by exists d.
    - rewrite (map_exec_size _ _ _ Hh) in Hex. injection Hex as <- <-.
      by exists d. }
  destruct (IH σ1 d1 rs1 Hh1 Hrun1) as (d' & Hh' & Hdom' & Hk').
  exists d'. split_and!; [done|set_solver|].
  intros k Hnot. rewrite Hk', Hk1; [done| |].
  - intros v ->. apply (Hnot t v). left.
  - intros t' v Hin. apply (Hnot t' v). by right.
Qed.

Lemma set_run_keeps (calls : list (thread_id * concurrent_unordered_set.call K))
    (σ : state (gset K)) (d : gset K) rs σ' :
  holds σ d →
  Forall (λ tc, tc.2 ≠ concurrent_unordered_set.call_consume) calls →
  run concurrent_unordered_set.method calls σ = Some (rs, σ') →
  ∃ d',
    holds σ' d'
    ∧ d ⊆ d'
    ∧ ∀ x,
        (∀ t, ((t, concurrent_unordered_set.call_insert x) ∉ calls)
              ∧ ((t, concurrent_unordered_set.call_insert_rvalue x) ∉ calls)) →
        x ∈ d' → x ∈ d.
Proof.
  intros Hh Hall. revert σ d rs Hh.
  induction Hall as [|[t c] calls Hc _ IH]; intros σ d rs Hh Hrun.
  { injection Hrun as <- <-. by exists d. }
  rewrite run_cons in Hrun.
  destruct (exec t (concurrent_unordered_set.method c) σ)
    as [[r σ1]|] eqn:Hex; [|done].
  destruct (run concurrent_unordered_set.method calls σ1)
    as [[rs1 σ2]|] eqn:Hrun1; [|done].
  injection Hrun as <- <-.
  assert (∃ d1,
    holds σ1 d1 ∧ d ⊆ d1
    ∧ ∀ x, c ≠ concurrent_unordered_set.call_insert x →
           c ≠ concurrent_unordered_set.call_insert_rvalue x →
           x ∈ d1 → x ∈ d) as (d1 & Hh1 & Hsub1 & Hx1).
  { destruct c as [x0|x0| | |]; [| | | |done];
      unfold concurrent_unordered_set.method in Hex;
      rewrite exec_bind in Hex.
    - rewrite (set_exec_insert _ _ _ _ Hh) in Hex.
      injection Hex as <- <-. eexists.
      split; [apply holds_set_contents|].
      case_decide; [done|]. split; [set_solver|].
      intros x Hne _. assert (x ≠ x0) by congruence. set_solver.
    - rewrite (set_exec_insert_rvalue _ _ _ _ Hh) in Hex.
      injection Hex as <- <-. eexists.
      split; [apply holds_set_contents|].
      case_decide; [done|]. split; [set_solver|].
      intros x _ Hne. assert (x ≠ x0) by congruence. set_solver.
    - rewrite (set_exec_empty _ _ _ Hh) in Hex. injection Hex as <- <-.
      by exists d.
    - rewrite (set_exec_size _ _ _ Hh) in Hex. injection Hex as <- <-.
      by exists d. }
  destruct (IH σ1 d1 rs1 Hh1 Hrun1) as (d' & Hh' & Hsub' & Hx').
  exists d'. split_and!; [done|set_solver|].
  intros x Hnot Hin. apply Hx1.
  - intros ->. apply (proj1 (Hnot t)). left.
  - intros ->. apply (proj2 (Hnot t)). left.
  - apply Hx'; [|done]. intros t'. destruct (Hnot t') as [Hn1 Hn2].
    split; intros Hin'; [apply Hn1|apply Hn2]; by right.
Qed.
End keeping.

(** X8.  Only consume removes entries.  In an interleaved execution
    without a call of consume, whenever the mutex is free the accumulator
    holds every key (map) or value (set) that it held at the start; a key
    that no call has assigned still has the value it had, or is still
    absent, and a value that no call has inserted is in the set only when it
    was there at the start. *)
Theorem entries_stay_until_consume :
  (∀ (K : Type) (EqK : EqDecision K) (CountK : Countable K) (V : Type)
     (σ0 : state (gmap K V)) (d0 : gmap K V) calls
     (c : config (gmap K V) (concurrent_unordered_map.call K V) result),
     holds σ0 d0 →
     execution concurrent_unordered_map.method (σ0, λ _, Idle) calls c →
     m_mutex c.1 = None →
     Forall (λ tc, tc.2 ≠ concurrent_unordered_map.call_consume) calls →
     ∃ d,
       holds c.1 d
       ∧ dom d0 ⊆ dom d
       ∧ ∀ k,
           (∀ t v,
              (t, concurrent_unordered_map.call_insert_or_assign k v) ∉ calls) →
           d !! k = d0 !! k)
  ∧ (∀ (T : Type) (EqT : EqDecision T) (CountT : Countable T)
       (σ0 : state (gset T)) (d0 : gset T) calls
       (c : config (gset T) (concurrent_unordered_set.call T) result),
       holds σ0 d0 →
       execution concurrent_unordered_set.method (σ0, λ _, Idle) calls c →
       m_mutex c.1 = None →
       Forall (λ tc, tc.2 ≠ concurrent_unordered_set.call_consume) calls →
       ∃ d,
         holds c.1 d
         ∧ d0 ⊆ d
         ∧ ∀ x,
             (∀ t, ((t, concurrent_unordered_set.call_insert x) ∉ calls)
                   ∧ ((t, concurrent_unordered_set.call_insert_rvalue x)
                      ∉ calls)) →
             x ∈ d → x ∈ d0).
Proof.
  split.
  - intros K EqK CountK V σ0 d0 calls c Hh Hexec Hfree Hall.
    destruct (free_mutex_serial_state _ map_method_atomic
                (λ t c σ d, map_method_returns t c σ d) σ0 d0 calls c
                Hh Hexec Hfree) as (_ & rs & Hrun).
    by apply (map_run_keeps calls σ0 d0 rs).
  - intros T EqT CountT σ0 d0 calls c Hh Hexec Hfree Hall.
    destruct (free_mutex_serial_state _ set_method_atomic
                (λ t c σ d, set_method_returns t c σ d) σ0 d0 calls c
                Hh Hexec Hfree) as (_ & rs & Hrun).
    by apply (set_run_keeps calls σ0 d0 rs).
Qed.

Lemma entries_stay_until_consume_witness :
  ∃ P,
    holds examples.holding {[1 := 10]}
    ∧ execution concurrent_unordered_map.method
        (examples.holding, λ _, Idle) examples.growing_calls
        (scenarios.spread_state, P)
    ∧ m_mutex scenarios.spread_state = None
    ∧ Forall (λ tc, tc.2 ≠ concurrent_unordered_map.call_consume)
        examples.growing_calls
    ∧ ∃ d : gmap nat nat,
        holds scenarios.spread_state d
        ∧ dom ({[1 := 10]} : gmap nat nat) ⊆ dom d
        ∧ ∀ k,
            (∀ t v,
               (t, concurrent_unordered_map.call_insert_or_assign k v)
               ∉ examples.growing_calls) →
            d !! k = ({[1 := 10]} : gmap nat nat) !! k.
Proof.
  assert (holds examples.holding ({[1 := 10]} : gmap nat nat)) as Hh
    by (split; vm_compute; reflexivity).
  assert (run concurrent_unordered_map.method examples.growing_calls
            examples.holding
          = Some ([ret_void; ret_void; ret_size 2; ret_bool false],
                  scenarios.spread_state)) as Hrun
    by (vm_compute; reflexivity).
  destruct (run_execution concurrent_unordered_map.method map_method_atomic
              _ _ (λ _, Idle) _ _ Hrun (λ _, eq_refl))
    as (P & Hexec & Hidle).
  assert (Forall (λ tc, tc.2 ≠ concurrent_unordered_map.call_consume)
            examples.growing_calls) as Hall
    by (by repeat constructor).
  exists P. split_and!; [exact Hh|exact Hexec|reflexivity|exact Hall|].
  exact (proj1 entries_stay_until_consume nat _ _ nat
           examples.holding {[1 := 10]} examples.growing_calls
           (scenarios.spread_state, P) Hh Hexec eq_refl Hall).
Defined.
